(** * PlanWeaver execution router: a shallow embedding of
    [planweaver/services/router.py] and the [Plan]/[ExecutionStep] data model
    of [planweaver/models/plan.py], with the properties of the dependency
    graph validator, the readiness scheduler, the step executor and the plan
    execution loop. *)

From Stdlib Require Import ZArith Lia Relations.
From stdpp Require Import base list strings pretty.

Open Scope Z_scope.

(* ------------------------------------------------------------------ *)
(** ** Data model ([models/plan.py]) *)

Module StepStatus.
Inductive t := PENDING | IN_PROGRESS | COMPLETED | FAILED | SKIPPED.
Definition eqb (a b : t) : bool :=
  match a, b with
  | PENDING, PENDING | IN_PROGRESS, IN_PROGRESS | COMPLETED, COMPLETED
  | FAILED, FAILED | SKIPPED, SKIPPED => true
  | _, _ => false
  end.
End StepStatus.

Module PlanStatus.
Inductive t :=
  BRAINSTORMING | AWAITING_APPROVAL | APPROVED | EXECUTING | COMPLETED | FAILED.
End PlanStatus.

(** The Python values the router stores in [step.output] and reads back:
    [None] or a string (the LLM reply content). *)
Inductive pyval := PyNone | PyStr (s : string).

(** Python truthiness of such a value: [None] and [""] are falsy. *)
Definition truthy (v : pyval) : bool :=
  match v with
  | PyNone => false
  | PyStr s => negb (String.eqb s "")
  end.

(** [ExecutionStep]; [prompt_template_id] is not read by the router and is
    left out.  Timestamps are the clock readings of the model (see [now]). *)
Record ExecutionStep := mkStep {
  step_id : Z;
  task : string;
  assigned_model : string;
  status : StepStatus.t;
  dependencies : list Z;
  output : pyval;
  error : option string;
  started_at : option Z;
  completed_at : option Z
}.

(** [Plan], restricted to the fields the router reads or writes. *)
Record Plan := mkPlan {
  plan_status : PlanStatus.t;
  execution_graph : list ExecutionStep;
  final_output : option (list (string * pyval))
}.

(** Exceptions raised by the router.  [ValueError] carries the message of
    the corresponding [raise] in [_validate_execution_graph]. *)
Inductive exn :=
| ValueError (msg : string)
| KeyError (k : Z)
| RecursionError
(** Not a Python exception: the iteration bound given to [while_loop] ran
    out.  The termination theorem of [execute_plan] shows that this never
    happens. *)
| FuelExhausted.

Inductive res (A : Type) := Ok (a : A) | Raise (e : exn).
Arguments Ok {A} a.
Arguments Raise {A} e.

(* ------------------------------------------------------------------ *)
(** ** Python dicts and sets keyed by step ids *)

(** A Python dict, as the list of its items in insertion order; [keq]
    is the key equality.  Assigning to an existing key keeps its position. *)
Fixpoint dict_set {K V} (keq : K -> K -> bool) (k : K) (v : V) (d : list (K * V))
    : list (K * V) :=
  match d with
  | [] => [(k, v)]
  | (k', v') :: d' => if keq k k' then (k, v) :: d' else (k', v') :: dict_set keq k v d'
  end.

Fixpoint dict_get {K V} (keq : K -> K -> bool) (k : K) (d : list (K * V)) : option V :=
  match d with
  | [] => None
  | (k', v') :: d' => if keq k k' then Some v' else dict_get keq k d'
  end.

(** [x in s] for a set of ints. *)
Definition mem (x : Z) (s : list Z) : bool := existsb (Z.eqb x) s.

(** [s.add(x)] and [s.remove(x)] on a set of ints. *)
Definition set_add (x : Z) (s : list Z) : list Z := if mem x s then s else x :: s.
Definition set_remove (x : Z) (s : list Z) : list Z := List.remove Z.eq_dec x s.

Definition fmt_int (n : Z) : string := pretty n.

(* ------------------------------------------------------------------ *)
(** ** [ExecutionRouter._validate_execution_graph] *)

(** [{step.step_id: step for step in plan.execution_graph}] *)
Definition steps_by_id (g : list ExecutionStep) : list (Z * ExecutionStep) :=
  fold_left (fun d s => dict_set Z.eqb (step_id s) s d) g [].

(** The inner loop [for dep in step.dependencies: ...]. *)
Fixpoint check_step_deps (sbi : list (Z * ExecutionStep)) (s : ExecutionStep)
    (deps : list Z) : res unit :=
  match deps with
  | [] => Ok tt
  | dep :: deps' =>
      if Z.eqb dep (step_id s) then
        Raise (ValueError ("Step " +:+ fmt_int (step_id s) +:+ " cannot depend on itself"))
      else match dict_get Z.eqb dep sbi with
      | None =>
          Raise (ValueError ("Step " +:+ fmt_int (step_id s) +:+
                             " depends on missing step " +:+ fmt_int dep))
      | Some _ => check_step_deps sbi s deps'
      end
  end.

(** The outer loop [for step in plan.execution_graph: ...]. *)
Fixpoint check_deps (sbi : list (Z * ExecutionStep)) (g : list ExecutionStep) : res unit :=
  match g with
  | [] => Ok tt
  | s :: g' =>
      match check_step_deps sbi s (dependencies s) with
      | Raise e => Raise e
      | Ok _ => check_deps sbi g' end
  end.

(** The state shared by the nested [visit] closures: the sets
    [(visiting, visited)]. *)
Definition VState : Type := (list Z * list Z)%type.

(** [for x in xs: f(x)] where [f] threads the shared state and may raise. *)
Fixpoint for_each (f : Z -> VState -> res VState) (xs : list Z) (st : VState)
    : res VState :=
  match xs with
  | [] => Ok st
  | x :: xs' =>
      match f x st with
      | Raise e => Raise e
      | Ok st' => for_each f xs' st'
      end
  end.

(** The closure [visit].  [fuel] bounds the recursion depth, which plays
    the part of the Python call stack; the bound chosen in
    [_validate_execution_graph] is never reached (see
    [visit_raise_cycle]). *)
Fixpoint visit (sbi : list (Z * ExecutionStep)) (fuel : nat) (sid : Z) (st : VState)
    {struct fuel} : res VState :=
  match fuel with
  | O => Raise RecursionError
  | S f =>
      let '(visiting, visited) := st in
      if mem sid visited then Ok st
      else if mem sid visiting then
        Raise (ValueError ("Execution graph contains a dependency cycle at step " +:+ fmt_int sid))
      else
        let visiting1 := set_add sid visiting in
        match dict_get Z.eqb sid sbi with
        | None => Raise (KeyError sid)
        | Some s =>
            match for_each (visit sbi f) (dependencies s) (visiting1, visited) with
            | Raise e => Raise e
            | Ok (visiting2, visited2) =>
                Ok (set_remove sid visiting2, set_add sid visited2)
            end
        end
  end.

Definition _validate_execution_graph (g : list ExecutionStep) : res unit :=
  let sbi := steps_by_id g in
  if negb (Nat.eqb (length sbi) (length g)) then
    Raise (ValueError "Execution graph contains duplicate step_id values")
  else
    match check_deps sbi g with
    | Raise e => Raise e
    | Ok _ =>
        match for_each (visit sbi (S (length sbi))) (map fst sbi) ([], []) with
        | Raise e => Raise e
        | Ok _ => Ok tt
        end
    end.

(* ------------------------------------------------------------------ *)
(** ** [ExecutionRouter.get_executable_steps] *)

(** Written over step references: [deref] reads the step a reference
    points to.  [get_executable_steps] below takes the steps themselves;
    the execution loop takes positions in [plan.execution_graph], since the
    steps it gets back are the very objects it then mutates. *)
Definition get_executable_steps_by {R} (deref : R -> ExecutionStep) (graph : list R)
    : list R :=
  let pending := List.filter (fun r => StepStatus.eqb (status (deref r)) StepStatus.PENDING) graph in
  let completed_ids :=
    map (fun r => step_id (deref r))
      (List.filter (fun r => StepStatus.eqb (status (deref r)) StepStatus.COMPLETED) graph) in
  List.filter (fun r => forallb (fun dep => mem dep completed_ids) (dependencies (deref r)))
    pending.

Definition get_executable_steps (g : list ExecutionStep) : list ExecutionStep :=
  get_executable_steps_by (fun s => s) g.

(* ------------------------------------------------------------------ *)
(** ** The world the executor acts on: LLM client, clock and sleeps *)

(** Observable effects, newest first: an LLM call made for a step, a
    [time.sleep], a [datetime.now] reading. *)
Inductive event := ECall (sid : Z) | ESleep (secs : Z) | ENow.

Definition world : Type := list event.

(** What one call of [self.llm.complete] does: raise with a message, or
    return a dict (an empty list stands for a falsy [{}] or [None]). *)
Inductive llm_reply :=
| LRaise (msg : string)
| LReturn (response : list (string * pyval)).

Fixpoint ncalls (w : world) : nat :=
  match w with
  | [] => O
  | ECall _ :: w' => S (ncalls w')
  | _ :: w' => ncalls w'
  end.

(** [datetime.now(timezone.utc)]: the clock reads the number of events so
    far, which increases strictly along a run. *)
Definition now (w : world) : Z * world := (Z.of_nat (length w), ENow :: w).

Definition sleep (secs : Z) (w : world) : world := ESleep secs :: w.

Definition MAX_RETRIES : nat := 3.
(** [RETRY_DELAY_BASE = 1.0]: seconds; [1.0 * 2 ** attempt] is exact, so
    delays are kept as integers. *)
Definition RETRY_DELAY_BASE : Z := 1.

(** The dict [ExecutionRouter.execute_step] returns. *)
Record step_result := mkResult {
  r_step_id : Z;
  r_output : pyval;
  r_error : option string;
  r_success : bool
}.

(** [f"{x}"] for the [Optional[str]] variable [last_error]. *)
Definition py_str_opt (o : option string) : string :=
  match o with None => "None" | Some m => m end.

Section Router.

(** The LLM client: its reply to the [n]-th call of the run.  Replies may
    depend on the prompt, but the prompt is determined by the earlier
    replies, so a reply per call index covers every client.  The prompt
    rendering ([_build_step_prompt], [TemplateEngine]) is therefore not
    modelled. *)
Variable llm : nat -> llm_reply.

Definition _call_model (sid : Z) (w : world) : llm_reply * world :=
  (llm (ncalls w), ECall sid :: w).

Definition _mark_step_started (s : ExecutionStep) (w : world) : ExecutionStep * world :=
  let '(t, w1) := now w in
  (mkStep (step_id s) (task s) (assigned_model s) StepStatus.IN_PROGRESS
     (dependencies s) (output s) (error s) (Some t) (completed_at s), w1).

Definition _mark_step_completed (s : ExecutionStep) (out : pyval) (w : world)
    : ExecutionStep * world :=
  let '(t, w1) := now w in
  (mkStep (step_id s) (task s) (assigned_model s) StepStatus.COMPLETED
     (dependencies s) out (error s) (started_at s) (Some t), w1).

Definition _mark_step_failed (s : ExecutionStep) (err : string) : ExecutionStep :=
  mkStep (step_id s) (task s) (assigned_model s) StepStatus.FAILED
    (dependencies s) (output s) (Some err) (started_at s) (completed_at s).

(** The body of [for attempt in range(MAX_RETRIES)]: [inl] is the early
    [return] of a success, [inr] the end of the loop with [last_error]. *)
Fixpoint attempts_loop (attempts : list nat) (s : ExecutionStep)
    (last_error : option string) (w : world)
    : (step_result * ExecutionStep * world) + (option string * world) :=
  match attempts with
  | [] => inr (last_error, w)
  | attempt :: rest =>
      let '(reply, w1) := _call_model (step_id s) w in
      match reply with
      | LReturn response =>
          match response with
          | _ :: _ =>
              let '(s1, w2) :=
                _mark_step_completed s (default PyNone (dict_get String.eqb "content" response)) w1 in
              inl (mkResult (step_id s1) (output s1) None true, s1, w2)
          | [] => attempts_loop rest s (Some "Empty response") w1
          end
      | LRaise msg =>
          let w2 :=
            if Nat.ltb attempt (MAX_RETRIES - 1)
            then sleep (RETRY_DELAY_BASE * 2 ^ Z.of_nat attempt) w1 else w1 in
          attempts_loop rest s (Some msg) w2
      end
  end.

Definition _execute_with_retries (s : ExecutionStep) (w : world)
    : step_result * ExecutionStep * world :=
  match attempts_loop (seq 0 MAX_RETRIES) s None w with
  | inl r => r
  | inr (last_error, w1) =>
      let error_message :=
        "Failed after " +:+ pretty MAX_RETRIES +:+ " attempts: " +:+ py_str_opt last_error in
      let s1 := _mark_step_failed s error_message in
      (mkResult (step_id s1) PyNone (error s1) false, s1, w1)
  end.

Definition execute_step (s : ExecutionStep) (w : world) : step_result * ExecutionStep * world :=
  let '(s1, w1) := _mark_step_started s w in
  _execute_with_retries s1 w1.


(* ------------------------------------------------------------------ *)
(** ** [ExecutionRouter.execute_plan] *)

(** The steps of [plan.execution_graph] are objects shared between the
    graph and the batches of the loop: a batch is the list of their
    positions, and [g !!! i] reads the step at position [i]. *)
Global Instance ExecutionStep_inhabited : Inhabited ExecutionStep :=
  populate (mkStep 0 "" "" StepStatus.PENDING [] PyNone None None None).

Definition executable_refs (g : list ExecutionStep) : list nat :=
  get_executable_steps_by (fun i => g !!! i) (seq 0 (length g)).

(** [for step in executable_steps: ...]: the boolean is [true] when the
    loop left through [return plan] after a failed step. *)
Fixpoint run_batch (batch : list nat) (g : list ExecutionStep) (step_count : Z)
    (w : world) : bool * list ExecutionStep * Z * world :=
  match batch with
  | [] => (false, g, step_count, w)
  | i :: rest =>
      let '(result, s1, w1) := execute_step (g !!! i) w in
      let g1 := <[i := s1]> g in
      let step_count1 := step_count + 1 in
      if negb (r_success result) then (true, g1, step_count1, w1)
      else run_batch rest g1 step_count1 w1
  end.

Inductive loop_outcome :=
| LoopBreak (g : list ExecutionStep) (step_count : Z) (w : world)
| LoopFailed (g : list ExecutionStep) (step_count : Z) (w : world)
| LoopFuelOut.

(** [while step_count < max_steps: ...]; [fuel] bounds the number of
    iterations. *)
Fixpoint while_loop (fuel : nat) (max_steps : Z) (g : list ExecutionStep)
    (step_count : Z) (w : world) : loop_outcome :=
  if step_count <? max_steps then
    match fuel with
    | O => LoopFuelOut
    | S f =>
        match executable_refs g with
        | [] => LoopBreak g step_count w
        | batch =>
            match run_batch batch g step_count w with
            | (true, g1, sc1, w1) => LoopFailed g1 sc1 w1
            | (false, g1, sc1, w1) =>
                match executable_refs g1 with
                | [] => LoopBreak g1 sc1 w1
                | _ => while_loop f max_steps g1 sc1 w1
                end
            end
        end
    end
  else LoopBreak g step_count w.

Definition all_completed (g : list ExecutionStep) : bool :=
  forallb (fun s => StepStatus.eqb (status s) StepStatus.COMPLETED
                    || StepStatus.eqb (status s) StepStatus.SKIPPED) g.

Definition step_key (sid : Z) : string := "step_" +:+ fmt_int sid.

Definition _aggregate_outputs (g : list ExecutionStep) : list (string * pyval) :=
  fold_left (fun outputs s =>
               if truthy (output s)
               then dict_set String.eqb (step_key (step_id s)) (output s) outputs
               else outputs) g [].

(** The state of a call of [execute_plan] when it returns or raises: the
    outcome, the plan object (mutated in place), the world, and the final
    value of the local [step_count] (the number of [execute_step] calls). *)
Record run := mkRun {
  run_result : res unit;
  run_plan : Plan;
  run_world : world;
  run_step_count : Z
}.

Definition execute_plan (plan : Plan) (max_steps : Z) (w : world) : run :=
  match _validate_execution_graph (execution_graph plan) with
  | Raise e => mkRun (Raise e) plan w 0
  | Ok _ =>
      let plan1 := mkPlan PlanStatus.EXECUTING (execution_graph plan) (final_output plan) in
      match while_loop (Z.to_nat max_steps) max_steps (execution_graph plan1) 0 w with
      | LoopFuelOut => mkRun (Raise FuelExhausted) plan1 w 0
      | LoopFailed g sc w1 =>
          mkRun (Ok tt) (mkPlan PlanStatus.FAILED g (final_output plan1)) w1 sc
      | LoopBreak g sc w1 =>
          if all_completed g then
            mkRun (Ok tt) (mkPlan PlanStatus.COMPLETED g (Some (_aggregate_outputs g))) w1 sc
          else
            mkRun (Ok tt) (mkPlan PlanStatus.FAILED g (final_output plan1)) w1 sc
      end
  end.

End Router.

(* ------------------------------------------------------------------ *)
(** ** [ExecutionRouter._get_previous_outputs] *)

(** [outputs[step.step_id] = step.output] for the COMPLETED steps whose id
    is among the current step's dependencies. *)
Definition _get_previous_outputs (g : list ExecutionStep) (current_step : ExecutionStep)
    : list (Z * pyval) :=
  fold_left (fun outputs s =>
               if StepStatus.eqb (status s) StepStatus.COMPLETED
                  && mem (step_id s) (dependencies current_step)
               then dict_set Z.eqb (step_id s) (output s) outputs
               else outputs) g [].

(* ------------------------------------------------------------------ *)
(** ** [Plan.add_step] and [Plan.get_pending_steps] ([models/plan.py]) *)

(** [self.execution_graph.append(step)]; the [updated_at] stamp is not
    modelled. *)
Definition add_step (g : list ExecutionStep) (s : ExecutionStep) : list ExecutionStep :=
  g ++ [s].


(* ------------------------------------------------------------------ *)
(** ** The Gemini path of [LLMGateway.complete] ([services/llm_gateway.py]) *)

Module LLMGateway.

Definition JSON_ONLY_INSTRUCTION : string :=
  "You must output valid JSON only. No markdown formatting, no code blocks.".

(** A chat message, a dict from str to str. *)
Definition message := list (string * string).

(** [{"role": role, "parts": [{"text": content}]}]: the role and the texts
    of the parts. *)
Record gemini_message := mkGeminiMessage { g_role : string; g_parts : list string }.

Definition _prepare_messages (messages : list message) (json_mode : bool) : list message :=
  if json_mode
  then messages ++ [[("role", "system"); ("content", JSON_ONLY_INSTRUCTION)]]
  else messages.

(** [None] is the [KeyError('content')] of [msg["content"]] on a message
    without content. *)
Fixpoint _convert_messages_for_gemini (messages : list message)
    : option (list gemini_message) :=
  match messages with
  | [] => Some []
  | msg :: rest =>
      let role0 := default "user" (dict_get String.eqb "role" msg) in
      let role := if String.eqb role0 "system" then "user"
                  else if String.eqb role0 "assistant" then "model" else role0 in
      match dict_get String.eqb "content" msg with
      | None => None
      | Some content =>
          match _convert_messages_for_gemini rest with
          | None => None
          | Some converted => Some (mkGeminiMessage role [content] :: converted)
          end
      end
  end.


Section Normalize.
(** [json_repair.repair_json] followed by [json.dumps]: a library call. *)
Variable _repair_json : option string -> string.


End Normalize.

End LLMGateway.

(* ------------------------------------------------------------------ *)
(** ** The callers in [orchestrator.py] *)

Global Instance PlanStatus_eq_dec : EqDecision PlanStatus.t.
Proof. solve_decision. Defined.

Module Orchestrator.

(** [Orchestrator.execute]: the outcome (the plan returned, or the
    exception), the plan object after the call, the world, and the
    database row of the session as the list of the plans [_save_plan] has
    written to it, newest first.  [router.execute_plan] runs with its
    default [max_steps = 100]; the context only feeds the prompts. *)
Definition execute (llm : nat -> llm_reply) (plan : Plan) (w : world) (db : list Plan)
    : res Plan * Plan * world * list Plan :=
  if decide (plan_status plan <> PlanStatus.APPROVED)
  then (Raise (ValueError "Plan must be APPROVED before execution"), plan, w, db)
  else
    let r := execute_plan llm plan 100 w in
    match run_result r with
    | Raise e => (Raise e, run_plan r, run_world r, db)
    | Ok _ => (Ok (run_plan r), run_plan r, run_world r, run_plan r :: db)
    end.

(** The outcome of [get_next_executable_step]: a step, [None], or the
    [IndexError] of [[][0]]. *)
Inductive next_step := NextStep (s : ExecutionStep) | NoStep | IndexError.

(** [self.router.get_executable_steps(plan)[0] if plan.execution_graph else None] *)
Definition get_next_executable_step (g : list ExecutionStep) : next_step :=
  match g with
  | [] => NoStep
  | _ :: _ =>
      match get_executable_steps g with
      | s :: _ => NextStep s
      | [] => IndexError
      end
  end.

End Orchestrator.


(* ------------------------------------------------------------------ *)
(** ** The spec's words, for comparison with the code *)

Global Instance StepStatus_eq_dec : EqDecision StepStatus.t.
Proof. solve_decision. Defined.

(** Readiness as the spec states it: the step is PENDING and each of its
    dependency ids is the id of some COMPLETED step of the plan. *)
Definition executable_spec (g : list ExecutionStep) (s : ExecutionStep) : Prop :=
  status s = StepStatus.PENDING /\
  Forall (fun dep => Exists (fun t => step_id t = dep /\ status t = StepStatus.COMPLETED) g)
    (dependencies s).

Global Instance executable_spec_dec g s : Decision (executable_spec g s).
Proof. unfold executable_spec. apply _. Defined.

(** The dependency edges as the validator sees them through [steps_by_id]:
    [a] depends on [b]. *)
Definition dict_edge (sbi : list (Z * ExecutionStep)) (a b : Z) : Prop :=
  exists s, dict_get Z.eqb a sbi = Some s /\ In b (dependencies s).

(** A list of visited ids in which each id is followed by all the ids it
    depends on: what the [visited] set of [visit] grows into. *)
Inductive dep_closed_seq (sbi : list (Z * ExecutionStep)) : list Z -> Prop :=
| dep_closed_nil : dep_closed_seq sbi []
| dep_closed_cons x l :
    (forall y, dict_edge sbi x y -> In y l) ->
    dep_closed_seq sbi l -> dep_closed_seq sbi (x :: l).

(** The malformed graphs of the spec, in terms of the step list. *)
Definition depends_on (g : list ExecutionStep) (a b : Z) : Prop :=
  exists s, In s g /\ step_id s = a /\ In b (dependencies s).

Definition has_duplicate_ids (g : list ExecutionStep) : Prop :=
  ~ List.NoDup (map step_id g).
Definition has_self_dependency (g : list ExecutionStep) : Prop :=
  exists s, In s g /\ In (step_id s) (dependencies s).
Definition has_missing_dependency (g : list ExecutionStep) : Prop :=
  exists s d, In s g /\ In d (dependencies s) /\ ~ In d (map step_id g).
Definition has_cycle (g : list ExecutionStep) : Prop :=
  exists a, clos_trans Z (depends_on g) a a.

Definition graph_malformed (g : list ExecutionStep) : Prop :=
  has_duplicate_ids g \/ has_self_dependency g \/ has_missing_dependency g \/ has_cycle g.

(* ------------------------------------------------------------------ *)
(** ** Concrete plans and clients used to exercise the model *)

Definition step_A : ExecutionStep :=
  mkStep 1 "A" "m" StepStatus.PENDING [] PyNone None None None.
Definition step_B : ExecutionStep :=
  mkStep 2 "B" "m" StepStatus.PENDING [1] PyNone None None None.

(** The spec's scenario: steps 1 and 2 depend on each other. *)
Definition cyclic_plan : Plan :=
  mkPlan PlanStatus.APPROVED
    [mkStep 1 "first" "m" StepStatus.PENDING [2] PyNone None None None;
     mkStep 2 "second" "m" StepStatus.PENDING [1] PyNone None None None] None.

(** A client whose every call raises. *)
Definition raising_llm (_ : nat) : llm_reply := LRaise "timeout".

(** A client answering as [LLMGateway.complete] does when the model
    produced no text: [_format_response] stores [content or ""]. *)
Definition empty_content_llm (_ : nat) : llm_reply :=
  LReturn [("content", PyStr ""); ("model", PyStr "m")].

(* ------------------------------------------------------------------ *)
(** ** Notions used to state the properties of the execution loop *)

(** The effects a step execution may have on the world. *)
Definition own_event (sid : Z) (e : event) : Prop :=
  e = ECall sid \/ (exists d, e = ESleep d) \/ e = ENow.

(** Between two states of the graph, every step is unchanged or COMPLETED. *)
Definition progressed (g g1 : list ExecutionStep) : Prop :=
  forall k, g1 !!! k = g !!! k \/ status (g1 !!! k) = StepStatus.COMPLETED.

(** A client answering every call with the text [out]. *)
Definition answering_llm (out : string) (_ : nat) : llm_reply :=
  LReturn [("content", PyStr out); ("model", PyStr "m")].

(** Two steps with no dependencies: one batch of two. *)
Definition step_C : ExecutionStep :=
  mkStep 3 "C" "m" StepStatus.PENDING [] PyNone None None None.
Definition independent_plan : Plan :=
  mkPlan PlanStatus.APPROVED [step_A; step_C] None.

(** The spec's scenario for a failing step: B depends on A. *)
Definition plan_AB : Plan :=
  mkPlan PlanStatus.APPROVED [step_A; step_B] None.

(** A client answering its first three calls with "a", "b" and "c". *)
Definition abc_llm (n : nat) : llm_reply :=
  LReturn [("content", PyStr (match n with O => "a" | 1%nat => "b" | _ => "c" end));
           ("model", PyStr "m")].

(** The spec's three-step plan, as a chain 1 <- 2 <- 3. *)
Definition plan_123 : Plan :=
  mkPlan PlanStatus.APPROVED
    [mkStep 1 "one" "m" StepStatus.PENDING [] PyNone None None None;
     mkStep 2 "two" "m" StepStatus.PENDING [1] PyNone None None None;
     mkStep 3 "three" "m" StepStatus.PENDING [2] PyNone None None None] None.

(** A plan with a SKIPPED step that carries an output. *)
Definition step_skipped : ExecutionStep :=
  mkStep 2 "S" "m" StepStatus.SKIPPED [] (PyStr "s") None None None.
Definition plan_skip : Plan :=
  mkPlan PlanStatus.APPROVED [step_A; step_skipped] None.

(** The mapping [_aggregate_outputs] builds when step ids are unique: each
    step with a truthy output, in graph order, under ["step_<id>"]. *)
Definition outputs_by_key (g : list ExecutionStep) : list (string * pyval) :=
  map (fun s => (step_key (step_id s), output s)) (List.filter (fun s => truthy (output s)) g).

(** A plan whose PENDING step 2 depends on the SKIPPED step 1. *)
Definition plan_skipdep : Plan :=
  mkPlan PlanStatus.APPROVED
    [mkStep 1 "S" "m" StepStatus.SKIPPED [] PyNone None None None;
     mkStep 2 "B" "m" StepStatus.PENDING [1] PyNone None None None] None.

(** The same with a second, COMPLETED, step under the id 1. *)
Definition plan_dup_skipdep : Plan :=
  mkPlan PlanStatus.APPROVED
    [mkStep 1 "S" "m" StepStatus.SKIPPED [] PyNone None None None;
     mkStep 1 "A" "m" StepStatus.COMPLETED [] (PyStr "a") None (Some 0) (Some 1);
     mkStep 2 "B" "m" StepStatus.PENDING [1] PyNone None None None] None.

(* ================================================================== *)
(** * Proofs *)

Lemma StepStatus_eqb_eq a b : StepStatus.eqb a b = true <-> a = b.
Proof. destruct a, b; simpl; split; congruence. Qed.

Lemma mem_In x l : mem x l = true <-> In x l.
Proof.
  unfold mem. rewrite existsb_exists. split.
  - intros (y & Hy & E). apply Z.eqb_eq in E. subst. exact Hy.
  - intros H. exists x. split; [exact H | apply Z.eqb_refl].
Qed.

Lemma mem_completed_ids (g : list ExecutionStep) dep :
  mem dep (map step_id (List.filter (fun t => StepStatus.eqb (status t) StepStatus.COMPLETED) g))
    = true <->
  Exists (fun t => step_id t = dep /\ status t = StepStatus.COMPLETED) g.
Proof.
  rewrite mem_In, in_map_iff, List.Exists_exists. split.
  - intros (t & <- & Ht). apply filter_In in Ht as [Ht Hc].
    apply StepStatus_eqb_eq in Hc. exists t. auto.
  - intros (t & Ht & <- & Hc). exists t. split; [reflexivity|].
    apply filter_In. split; [exact Ht | apply StepStatus_eqb_eq, Hc].
Qed.

Lemma get_executable_steps_filter (g l : list ExecutionStep) :
  List.filter
    (fun s => forallb (fun dep => mem dep (map step_id
       (List.filter (fun t => StepStatus.eqb (status t) StepStatus.COMPLETED) g)))
       (dependencies s))
    (List.filter (fun s => StepStatus.eqb (status s) StepStatus.PENDING) l)
  = filter (executable_spec g) l.
Proof.
  induction l as [|s l IH]; [reflexivity|].
  rewrite filter_cons. simpl.
  destruct (StepStatus.eqb (status s) StepStatus.PENDING) eqn:Hp; simpl.
  - apply StepStatus_eqb_eq in Hp.
    destruct (forallb _ (dependencies s)) eqn:Hf.
    + rewrite decide_True; [now rewrite IH|].
      split; [exact Hp|]. apply List.Forall_forall. intros dep Hd.
      rewrite forallb_forall in Hf. apply mem_completed_ids, Hf, Hd.
    + rewrite decide_False; [exact IH|].
      intros [_ HF]. apply not_true_iff_false in Hf. apply Hf.
      apply forallb_forall. intros dep Hd. apply mem_completed_ids.
      rewrite List.Forall_forall in HF. apply HF, Hd.
  - rewrite decide_False; [exact IH|].
    intros [E _]. rewrite E in Hp. discriminate.
Qed.

Lemma get_executable_steps_eq (g : list ExecutionStep) :
  get_executable_steps g = filter (executable_spec g) g.
Proof. unfold get_executable_steps, get_executable_steps_by. apply get_executable_steps_filter. Qed.

(** C2: [get_executable_steps] returns exactly the steps of
    [plan.execution_graph] that are PENDING and whose dependency ids all
    name COMPLETED steps of the plan, in their order in the graph (it is
    the order-preserving filter of the graph by the spec's readiness
    condition); when no step qualifies the result is empty.  Being a
    function of the step list, it changes nothing. *)
Theorem get_executable_steps_spec (g : list ExecutionStep) :
  get_executable_steps g = filter (executable_spec g) g /\
  ((forall s, In s g -> ~ executable_spec g s) -> get_executable_steps g = []).
Proof.
  pose proof (get_executable_steps_eq g) as E.
  split; [exact E|]. intros Hn. rewrite E.
  assert (G : forall l, (forall s, In s l -> ~ executable_spec g s) ->
                        filter (executable_spec g) l = []).
  { induction l as [|s l IH]; intros Hl; [reflexivity|].
    rewrite filter_cons, decide_False; [|apply Hl; left; reflexivity].
    apply IH. intros t Ht. apply Hl. right. exact Ht. }
  apply G, Hn.
Qed.

(** C5: when [_validate_execution_graph] raises, [execute_plan] raises the
    same error before touching anything: the plan object (its status, its
    steps with their statuses, outputs, errors and timestamps, its
    final_output) is the one it was given, no LLM call, sleep or clock
    reading happened, and no step was executed. *)
Theorem execute_plan_validation_error_no_mutation llm (plan : Plan) (max_steps : Z)
    (w : world) (e : exn) :
  _validate_execution_graph (execution_graph plan) = Raise e ->
  run_result (execute_plan llm plan max_steps w) = Raise e /\
  run_plan (execute_plan llm plan max_steps w) = plan /\
  run_world (execute_plan llm plan max_steps w) = w /\
  run_step_count (execute_plan llm plan max_steps w) = 0.
Proof. intros H. unfold execute_plan. rewrite H. repeat split. Qed.

Lemma execute_plan_validation_error_no_mutation_witness :
  _validate_execution_graph (execution_graph cyclic_plan) =
    Raise (ValueError "Execution graph contains a dependency cycle at step 1") /\
  run_plan (execute_plan (fun _ => LRaise "unused") cyclic_plan 100 []) = cyclic_plan.
Proof.
  split; [vm_compute; reflexivity|].
  apply (execute_plan_validation_error_no_mutation (fun _ => LRaise "unused") cyclic_plan 100 []
           (ValueError "Execution graph contains a dependency cycle at step 1")).
  vm_compute. reflexivity.
Defined.

(* ------------------------------------------------------------------ *)
(** ** [steps_by_id] *)

Definition pair_by_id (s : ExecutionStep) : Z * ExecutionStep := (step_id s, s).

Lemma dict_set_notin {V} (k : Z) (v : V) d :
  ~ In k (map fst d) -> dict_set Z.eqb k v d = d ++ [(k, v)].
Proof.
  induction d as [|[k' v'] d IH]; intros Hn; [reflexivity|]. simpl in *.
  destruct (Z.eqb_spec k k'); [exfalso; apply Hn; left; congruence|].
  rewrite IH; [reflexivity|]. intros H. apply Hn. right. exact H.
Qed.

Lemma dict_set_in {V} (k : Z) (v : V) d :
  In k (map fst d) -> map fst (dict_set Z.eqb k v d) = map fst d.
Proof.
  induction d as [|[k' v'] d IH]; intros Hi; [destruct Hi|]. simpl in *.
  destruct (Z.eqb_spec k k'); simpl.
  - congruence.
  - rewrite IH; [reflexivity|]. destruct Hi; [congruence|assumption].
Qed.

Lemma dict_set_length {V} (k : Z) (v : V) d :
  (length (dict_set Z.eqb k v d) <= S (length d))%nat.
Proof.
  induction d as [|[k' v'] d IH]; simpl; [lia|].
  destruct (k =? k'); simpl; lia.
Qed.

Lemma steps_by_id_fold_length g acc :
  (length (fold_left (fun d s => dict_set Z.eqb (step_id s) s d) g acc)
     <= length acc + length g)%nat.
Proof.
  induction g as [|s g IH] in acc |- *; simpl; [lia|].
  specialize (IH (dict_set Z.eqb (step_id s) s acc)).
  pose proof (dict_set_length (step_id s) s acc). lia.
Qed.

Lemma steps_by_id_fold_length_iff g acc :
  List.NoDup (map fst acc) ->
  (length (fold_left (fun d s => dict_set Z.eqb (step_id s) s d) g acc)
     = length acc + length g)%nat <->
  List.NoDup (map fst acc ++ map step_id g).
Proof.
  induction g as [|s g IH] in acc |- *; intros Hnd; simpl.
  - rewrite app_nil_r. split; [intros _; exact Hnd | lia].
  - destruct (in_dec Z.eq_dec (step_id s) (map fst acc)) as [Hi|Hi].
    + split.
      * intros Hl. exfalso.
        pose proof (steps_by_id_fold_length g (dict_set Z.eqb (step_id s) s acc)) as Hle.
        assert (Hlen : length (dict_set Z.eqb (step_id s) s acc) = length acc).
        { rewrite <- (length_map fst (dict_set _ _ _ _)), <- (length_map fst acc).
          now rewrite dict_set_in. }
        lia.
      * intros Hn. exfalso. apply NoDup_remove_2 in Hn. apply Hn.
        apply in_or_app. left. exact Hi.
    + rewrite dict_set_notin by exact Hi.
      assert (E : map fst acc ++ step_id s :: map step_id g =
                  map fst (acc ++ [(step_id s, s)]) ++ map step_id g).
      { rewrite map_app, <- app_assoc. reflexivity. }
      rewrite E, <- IH.
      * rewrite length_app. simpl. split; intros; lia.
      * rewrite map_app. simpl. apply List.NoDup_app; [exact Hnd|repeat constructor; auto|].
        intros x Hx [<-|[]]. contradiction.
Qed.

Lemma steps_by_id_fold_nodup g acc :
  List.NoDup (map fst acc ++ map step_id g) ->
  fold_left (fun d s => dict_set Z.eqb (step_id s) s d) g acc = acc ++ map pair_by_id g.
Proof.
  induction g as [|s g IH] in acc |- *; intros Hnd; simpl.
  - rewrite app_nil_r. reflexivity.
  - rewrite dict_set_notin.
    + rewrite IH, <- app_assoc; [reflexivity|].
      rewrite map_app, <- app_assoc. exact Hnd.
    + intros Hi. apply NoDup_remove_2 in Hnd. apply Hnd. apply in_or_app. left. exact Hi.
Qed.

Lemma steps_by_id_length_iff g :
  length (steps_by_id g) = length g <-> List.NoDup (map step_id g).
Proof.
  unfold steps_by_id. rewrite (steps_by_id_fold_length_iff g []); [reflexivity|constructor].
Qed.

Lemma steps_by_id_nodup g :
  List.NoDup (map step_id g) -> steps_by_id g = map pair_by_id g.
Proof. intros H. unfold steps_by_id. apply (steps_by_id_fold_nodup g []). exact H. Qed.

Lemma dict_get_pairs_Some g k s :
  dict_get Z.eqb k (map pair_by_id g) = Some s -> In s g /\ step_id s = k.
Proof.
  induction g as [|t g IH]; simpl; [discriminate|].
  destruct (Z.eqb_spec k (step_id t)).
  - intros [= <-]. auto.
  - intros H. destruct (IH H). auto.
Qed.

Lemma dict_get_pairs_In g s :
  List.NoDup (map step_id g) -> In s g ->
  dict_get Z.eqb (step_id s) (map pair_by_id g) = Some s.
Proof.
  induction g as [|t g IH]; simpl; [intros _ []|].
  intros Hnd Hi. inversion Hnd as [|? ? Hn Hnd']; subst.
  destruct (Z.eqb_spec (step_id s) (step_id t)) as [E|E].
  - destruct Hi as [->|Hi]; [reflexivity|].
    exfalso. apply Hn. rewrite <- E. apply in_map, Hi.
  - destruct Hi as [->|Hi]; [congruence|]. apply IH; assumption.
Qed.

Lemma dict_get_None_iff {V} k (d : list (Z * V)) :
  dict_get Z.eqb k d = None <-> ~ In k (map fst d).
Proof.
  induction d as [|[k' v'] d IH]; simpl; [tauto|].
  destruct (Z.eqb_spec k k').
  - split; [discriminate|]. intros H. exfalso. apply H. left. congruence.
  - rewrite IH. split; intros H; [intros [?|?]; [congruence|tauto] | tauto].
Qed.

Lemma map_fst_pairs g : map fst (map pair_by_id g) = map step_id g.
Proof. rewrite map_map. reflexivity. Qed.

(* ------------------------------------------------------------------ *)
(** ** The dependency checks *)

Lemma check_step_deps_ok sbi s deps u :
  check_step_deps sbi s deps = Ok u ->
  forall dep, In dep deps -> dep <> step_id s /\ dict_get Z.eqb dep sbi <> None.
Proof.
  induction deps as [|d deps IH]; simpl; [intros _ _ []|].
  destruct (Z.eqb_spec d (step_id s)); [discriminate|].
  destruct (dict_get Z.eqb d sbi) eqn:Hd; [|discriminate].
  intros H dep [<-|Hi]; [split; congruence|]. apply IH; assumption.
Qed.

Lemma check_step_deps_raise sbi s deps e :
  check_step_deps sbi s deps = Raise e ->
  exists dep, In dep deps /\ (dep = step_id s \/ dict_get Z.eqb dep sbi = None).
Proof.
  induction deps as [|d deps IH]; simpl; [discriminate|].
  destruct (Z.eqb_spec d (step_id s)).
  - intros _. exists d. auto.
  - destruct (dict_get Z.eqb d sbi) eqn:Hd.
    + intros H. destruct (IH H) as (dep & ? & ?). exists dep. auto.
    + intros _. exists d. auto.
Qed.

Lemma check_deps_ok sbi g u :
  check_deps sbi g = Ok u ->
  forall s dep, In s g -> In dep (dependencies s) ->
  dep <> step_id s /\ dict_get Z.eqb dep sbi <> None.
Proof.
  induction g as [|t g IH]; simpl; [intros _ _ _ []|].
  destruct (check_step_deps sbi t (dependencies t)) as [u'|e] eqn:Ht; [|discriminate].
  intros H s dep [<-|Hi] Hd.
  - eapply check_step_deps_ok; eassumption.
  - eapply IH; eassumption.
Qed.

Lemma check_deps_raise sbi g e :
  check_deps sbi g = Raise e ->
  exists s dep, In s g /\ In dep (dependencies s) /\
    (dep = step_id s \/ dict_get Z.eqb dep sbi = None).
Proof.
  induction g as [|t g IH]; simpl; [discriminate|].
  destruct (check_step_deps sbi t (dependencies t)) as [u'|e'] eqn:Ht.
  - intros H. destruct (IH H) as (s & dep & ? & ? & ?). exists s, dep. auto.
  - intros _. destruct (check_step_deps_raise _ _ _ _ Ht) as (dep & ? & ?).
    exists t, dep. auto.
Qed.

(* ------------------------------------------------------------------ *)
(** ** The depth-first search of [visit] *)

Section Dfs.

Variable sbi : list (Z * ExecutionStep).

Lemma set_add_fresh x l : mem x l = false -> set_add x l = x :: l.
Proof. unfold set_add. intros ->. reflexivity. Qed.

Lemma mem_false x l : mem x l = false -> ~ In x l.
Proof. intros H Hi. apply mem_In in Hi. congruence. Qed.

(** A successful [visit] leaves [visiting] as it found it, only adds to
    [visited], adds [sid] to it, and keeps it closed under dependencies. *)
Lemma visit_ok fuel : forall sid vs vd vs' vd',
  visit sbi fuel sid (vs, vd) = Ok (vs', vd') ->
  vs' = vs /\ incl vd vd' /\ In sid vd' /\
  (dep_closed_seq sbi vd -> dep_closed_seq sbi vd').
Proof.
  induction fuel as [|f IH]; intros sid vs vd vs' vd' H; simpl in H; [discriminate|].
  destruct (mem sid vd) eqn:Hvd.
  { injection H as <- <-. apply mem_In in Hvd. split; [reflexivity|].
    split; [intros ? ?; assumption|]. auto. }
  destruct (mem sid vs) eqn:Hvs; [discriminate|].
  rewrite set_add_fresh in H by exact Hvs.
  destruct (dict_get Z.eqb sid sbi) as [s|] eqn:Hs; [|discriminate].
  assert (Loop : forall ds vd0 vs2 vd2,
    for_each (visit sbi f) ds (sid :: vs, vd0) = Ok (vs2, vd2) ->
    vs2 = sid :: vs /\ incl vd0 vd2 /\ (forall d, In d ds -> In d vd2) /\
    (dep_closed_seq sbi vd0 -> dep_closed_seq sbi vd2)).
  { induction ds as [|d ds IHds]; intros vd0 vs2 vd2 Hf; simpl in Hf.
    - injection Hf as <- <-. split; [reflexivity|]. split; [intros ? ?; assumption|].
      split; [intros _ []|auto].
    - destruct (visit sbi f d (sid :: vs, vd0)) as [[vs1 vd1]|e] eqn:Hv; [|discriminate].
      destruct (IH _ _ _ _ _ Hv) as (-> & Hinc1 & Hin1 & Hc1).
      destruct (IHds _ _ _ Hf) as (-> & Hinc2 & Hin2 & Hc2).
      split; [reflexivity|]. split; [intros x Hx; apply Hinc2, Hinc1, Hx|].
      split; [intros d' [<-|Hd']; [apply Hinc2, Hin1|apply Hin2, Hd']|auto]. }
  destruct (for_each (visit sbi f) (dependencies s) (sid :: vs, vd)) as [[vs2 vd2]|e]
    eqn:Hf; [|discriminate].
  injection H as <- <-.
  destruct (Loop _ _ _ _ Hf) as (-> & Hinc & Hdeps & Hc).
  split.
  { unfold set_remove. simpl. destruct (Z.eq_dec sid sid) as [_|]; [|congruence].
    apply notin_remove, mem_false, Hvs. }
  unfold set_add. destruct (mem sid vd2) eqn:Hm.
  - split; [exact Hinc|]. split; [apply mem_In, Hm|exact Hc].
  - split; [intros x Hx; right; apply Hinc, Hx|]. split; [left; reflexivity|].
    intros Hvd0. constructor; [|apply Hc, Hvd0].
    intros y (s' & Hs' & Hy). rewrite Hs in Hs'. injection Hs' as <-. apply Hdeps, Hy.
Qed.

Lemma dep_closed_seq_reach l x y :
  dep_closed_seq sbi l -> In x l -> clos_trans Z (dict_edge sbi) x y -> In y l.
Proof.
  intros Hl Hx Hc. revert Hx. induction Hc as [x y Hxy|x z y _ IH1 _ IH2]; intros Hx.
  - induction Hl as [|x0 l Hx0 Hl IHl]; [destruct Hx|].
    destruct Hx as [<-|Hx]; [right; apply Hx0, Hxy|right; apply IHl, Hx].
  - apply IH2, IH1, Hx.
Qed.

Lemma dep_closed_seq_acyclic l x :
  dep_closed_seq sbi l -> In x l -> ~ clos_trans Z (dict_edge sbi) x x.
Proof.
  intros Hl. revert x. induction Hl as [|x0 l Hx0 Hl IHl]; intros x Hx Hc; [destruct Hx|].
  destruct (in_dec Z.eq_dec x l) as [Hin|Hnin]; [exact (IHl x Hin Hc)|].
  destruct Hx as [<-|Hx]; [|contradiction].
  apply clos_trans_t1n in Hc. inversion Hc as [y Hxy|y z Hxz Hzx]; subst.
  - apply Hnin, Hx0, Hxy.
  - apply Hnin. apply (dep_closed_seq_reach l y x0 Hl); [apply Hx0, Hxz|].
    apply clos_t1n_trans, Hzx.
Qed.

Lemma dict_get_keys k : dict_get Z.eqb k sbi <> None -> In k (map fst sbi).
Proof.
  intros H. destruct (in_dec Z.eq_dec k (map fst sbi)) as [?|Hn]; [assumption|].
  apply dict_get_None_iff in Hn. contradiction.
Qed.

Hypothesis closed : forall a b, dict_edge sbi a b -> dict_get Z.eqb b sbi <> None.

(** A [visit] that raises has met a step again on the current path: the
    graph has a cycle.  Along the way the depth bound is never reached,
    since the path holds distinct ids of the graph. *)
Lemma visit_raise_cycle fuel : forall sid vs vd e,
  visit sbi fuel sid (vs, vd) = Raise e ->
  dict_get Z.eqb sid sbi <> None ->
  (forall x, In x vs -> clos_trans Z (dict_edge sbi) x sid) ->
  List.NoDup vs -> incl vs (map fst sbi) ->
  (length (map fst sbi) < fuel + length vs)%nat ->
  exists x, clos_trans Z (dict_edge sbi) x x.
Proof.
  induction fuel as [|f IH]; intros sid vs vd e H Hsid Hpath Hnd Hincl Hlen.
  { pose proof (NoDup_incl_length Hnd Hincl). lia. }
  simpl in H.
  destruct (mem sid vd) eqn:Hvd; [discriminate|].
  destruct (mem sid vs) eqn:Hvs.
  { exists sid. apply Hpath, mem_In, Hvs. }
  rewrite set_add_fresh in H by exact Hvs.
  destruct (dict_get Z.eqb sid sbi) as [s|] eqn:Hs; [|contradiction].
  assert (Loop : forall ds vd0 e',
    (forall d, In d ds -> In d (dependencies s)) ->
    for_each (visit sbi f) ds (sid :: vs, vd0) = Raise e' ->
    exists x, clos_trans Z (dict_edge sbi) x x).
  { induction ds as [|d ds IHds]; intros vd0 e' Hds Hf; simpl in Hf; [discriminate|].
    assert (Hedge : dict_edge sbi sid d) by (exists s; split; [exact Hs|apply Hds; left; reflexivity]).
    destruct (visit sbi f d (sid :: vs, vd0)) as [[vs1 vd1]|e1] eqn:Hv.
    - destruct (visit_ok _ _ _ _ _ _ Hv) as (-> & _).
      apply (IHds vd1 e'); [intros d' Hd'; apply Hds; right; exact Hd'|exact Hf].
    - apply (IH d (sid :: vs) vd0 e1 Hv).
      + apply (closed sid), Hedge.
      + intros x [<-|Hx]; [apply t_step, Hedge|].
        apply (t_trans _ _ x sid d); [apply Hpath, Hx|apply t_step, Hedge].
      + constructor; [apply mem_false, Hvs|exact Hnd].
      + intros x [<-|Hx]; [apply dict_get_keys; congruence|apply Hincl, Hx].
      + simpl. lia. }
  destruct (for_each (visit sbi f) (dependencies s) (sid :: vs, vd)) as [[vs2 vd2]|e2]
    eqn:Hf; [discriminate|].
  apply (Loop _ _ _ (fun d Hd => Hd) Hf).
Qed.

End Dfs.

Lemma dfs_keys_ok sbi fuel ks : forall vd vs' vd',
  for_each (visit sbi fuel) ks ([], vd) = Ok (vs', vd') ->
  incl vd vd' /\ (dep_closed_seq sbi vd -> dep_closed_seq sbi vd') /\
  (forall k, In k ks -> In k vd').
Proof.
  induction ks as [|k ks IH]; intros vd vs' vd' H; simpl in H.
  - injection H as <- <-. split; [intros ? ?; assumption|]. split; [auto|intros _ []].
  - destruct (visit sbi fuel k ([], vd)) as [[vs1 vd1]|e] eqn:Hv; [|discriminate].
    destruct (visit_ok sbi fuel _ _ _ _ _ Hv) as (-> & Hinc & Hk & Hc1).
    destruct (IH _ _ _ H) as (Hinc2 & Hc2 & Hin).
    split; [intros x Hx; apply Hinc2, Hinc, Hx|]. split; [auto|].
    intros k' [<-|Hk']; [apply Hinc2, Hk|apply Hin, Hk'].
Qed.

Lemma dfs_keys_raise sbi fuel ks
    (closed : forall a b, dict_edge sbi a b -> dict_get Z.eqb b sbi <> None) :
  (length (map fst sbi) < fuel)%nat ->
  (forall k, In k ks -> dict_get Z.eqb k sbi <> None) ->
  forall vd e, for_each (visit sbi fuel) ks ([], vd) = Raise e ->
  exists x, clos_trans Z (dict_edge sbi) x x.
Proof.
  intros Hfuel. induction ks as [|k ks IH]; intros Hks vd e H; simpl in H; [discriminate|].
  destruct (visit sbi fuel k ([], vd)) as [[vs1 vd1]|e1] eqn:Hv.
  - destruct (visit_ok sbi fuel _ _ _ _ _ Hv) as (-> & _).
    apply (IH (fun k' Hk' => Hks k' (or_intror Hk')) vd1 e H).
  - apply (visit_raise_cycle sbi closed fuel k [] vd e1 Hv).
    + apply Hks. left. reflexivity.
    + intros _ [].
    + constructor.
    + intros _ [].
    + simpl. lia.
Qed.

Lemma clos_trans_mono (R R' : Z -> Z -> Prop) x y :
  (forall a b, R a b -> R' a b) -> clos_trans Z R x y -> clos_trans Z R' x y.
Proof.
  intros HR Hc. induction Hc as [a b Hab|a b c _ IH1 _ IH2].
  - apply t_step, HR, Hab.
  - apply (t_trans _ _ a b c IH1 IH2).
Qed.

Lemma dict_edge_depends_on g a b :
  List.NoDup (map step_id g) ->
  dict_edge (map pair_by_id g) a b <-> depends_on g a b.
Proof.
  intros Hnd. split.
  - intros (s & Hs & Hb). apply dict_get_pairs_Some in Hs as [Hs <-]. exists s. auto.
  - intros (s & Hs & <- & Hb). exists s. split; [apply dict_get_pairs_In; assumption|exact Hb].
Qed.

Lemma validate_cases g :
  (forall e, _validate_execution_graph g = Raise e -> graph_malformed g) /\
  (forall u, _validate_execution_graph g = Ok u -> ~ graph_malformed g).
Proof.
  unfold _validate_execution_graph. cbv zeta.
  destruct (Nat.eqb_spec (length (steps_by_id g)) (length g)) as [Hl|Hl]; cbn [negb].
  2:{ split; [|discriminate]. intros e _. left. intros Hnd.
      apply Hl, steps_by_id_length_iff, Hnd. }
  apply steps_by_id_length_iff in Hl as Hnd.
  rewrite (steps_by_id_nodup g Hnd).
  destruct (check_deps (map pair_by_id g) g) as [u0|e0] eqn:Hc.
  2:{ split; [|discriminate]. intros e _.
      destruct (check_deps_raise _ _ _ Hc) as (s & dep & Hs & Hd & [->|Hm]).
      - right; left. exists s. auto.
      - right; right; left. exists s, dep. split; [exact Hs|]. split; [exact Hd|].
        apply dict_get_None_iff in Hm. rewrite map_fst_pairs in Hm. exact Hm. }
  pose proof (check_deps_ok _ _ _ Hc) as Hok.
  assert (closed : forall a b, dict_edge (map pair_by_id g) a b ->
                               dict_get Z.eqb b (map pair_by_id g) <> None).
  { intros a b (s & Hs & Hb). apply dict_get_pairs_Some in Hs as [Hs _].
    apply (Hok s b Hs Hb). }
  destruct (for_each (visit (map pair_by_id g) (S (length (map pair_by_id g))))
              (map fst (map pair_by_id g)) ([], [])) as [[vs' vd']|e1] eqn:Hf.
  - split; [discriminate|]. intros u _ Hm.
    destruct Hm as [Hd|[(s & Hs & Hself)|[(s & d & Hs & Hd & Hmiss)|(a & Hcyc)]]].
    + exact (Hd Hnd).
    + exact (proj1 (Hok s _ Hs Hself) eq_refl).
    + apply (proj2 (Hok s d Hs Hd)). apply dict_get_None_iff.
      rewrite map_fst_pairs. exact Hmiss.
    + apply (clos_trans_mono _ (dict_edge (map pair_by_id g))) in Hcyc;
        [|intros x y; apply dict_edge_depends_on, Hnd].
      destruct (dfs_keys_ok _ _ _ _ _ _ Hf) as (_ & Hclosed & Hall).
      specialize (Hclosed (dep_closed_nil _)).
      apply (dep_closed_seq_acyclic _ vd' a Hclosed); [|exact Hcyc].
      apply Hall.
      assert (Hz : exists z, dict_edge (map pair_by_id g) a z).
      { assert (G : forall x y, clos_trans Z (dict_edge (map pair_by_id g)) x y ->
                              exists z, dict_edge (map pair_by_id g) x z).
        { intros x y Hxy. induction Hxy as [x y Hxy|x y z _ IH1 _ _];
            [exists y; exact Hxy|exact IH1]. }
        exact (G a a Hcyc). }
      destruct Hz as (z & s & Hs & _).
      apply (dict_get_keys (map pair_by_id g)). congruence.
  - split; [|discriminate]. intros e _. right; right; right.
    assert (Hks : forall k, In k (map fst (map pair_by_id g)) ->
                            dict_get Z.eqb k (map pair_by_id g) <> None).
    { intros k Hk Hn. apply dict_get_None_iff in Hn. contradiction. }
    assert (Hfuel : (length (map fst (map pair_by_id g)) < S (length (map pair_by_id g)))%nat)
      by (rewrite !length_map; lia).
    destruct (dfs_keys_raise (map pair_by_id g) _ _ closed Hfuel Hks _ _ Hf) as [a Hcyc].
    exists a. apply (clos_trans_mono (dict_edge (map pair_by_id g))); [|exact Hcyc].
    intros x y. apply dict_edge_depends_on, Hnd.
Qed.

(** C1: [_validate_execution_graph] raises exactly on the malformed graphs
    of the spec: two steps share a step_id, a step depends on itself, a
    step depends on an id no step has, or following dependencies from some
    step leads back to it.  On every other graph it returns normally. *)
Theorem validate_execution_graph_spec (g : list ExecutionStep) :
  ((exists e, _validate_execution_graph g = Raise e) <-> graph_malformed g) /\
  (~ graph_malformed g -> _validate_execution_graph g = Ok tt).
Proof.
  destruct (validate_cases g) as [Hr Ho].
  destruct (_validate_execution_graph g) as [u|e] eqn:Hv.
  - destruct u. split.
    + split; [intros (e & [=])|]. intros Hm. exfalso. exact (Ho tt eq_refl Hm).
    + intros _. reflexivity.
  - split.
    + split; [intros _; exact (Hr e eq_refl)|intros _; exists e; reflexivity].
    + intros Hn. exfalso. exact (Hn (Hr e eq_refl)).
Qed.

(* ------------------------------------------------------------------ *)
(** ** The step executor *)

(** C4: when every LLM call raises, [execute_step] calls the client
    exactly three times, sleeps 1 s after the first failure and 2 s after
    the second (and not after the third), then marks the step FAILED with
    the error ["Failed after 3 attempts: <last message>"] and reports
    failure.  The FAILED step is never again among the executable steps of
    any graph, so the loop does not execute it again. *)
Theorem execute_step_retry_bound llm (msg : nat -> string) (s : ExecutionStep) (w : world) :
  (forall n, llm n = LRaise (msg n)) ->
  let err := "Failed after 3 attempts: " +:+ msg (S (S (ncalls w))) in
  let s' := mkStep (step_id s) (task s) (assigned_model s) StepStatus.FAILED
              (dependencies s) (output s) (Some err)
              (Some (Z.of_nat (length w))) (completed_at s) in
  execute_step llm s w =
    (mkResult (step_id s) PyNone (Some err) false, s',
     [ECall (step_id s); ESleep 2; ECall (step_id s); ESleep 1; ECall (step_id s); ENow] ++ w) /\
  (forall g, ~ In s' (get_executable_steps g)).
Proof.
  intros H err s'. split.
  - unfold execute_step, _mark_step_started, now, _execute_with_retries. simpl.
    rewrite !H. reflexivity.
  - intros g Hin. rewrite get_executable_steps_eq in Hin. apply list_elem_of_In, list_elem_of_filter in Hin as [[Hst _] _].
    discriminate Hst.
Qed.

Lemma execute_step_retry_bound_witness :
  (forall n, raising_llm n = LRaise ((fun _ => "timeout") n)) /\
  fst (fst (execute_step raising_llm step_A [])) =
    mkResult 1 PyNone (Some "Failed after 3 attempts: timeout") false.
Proof.
  split; [intros n; reflexivity|].
  destruct (execute_step_retry_bound raising_llm (fun _ => "timeout") step_A []
              (fun n => eq_refl)) as [E _].
  rewrite E. reflexivity.
Defined.

(** C8: a reply whose content is empty is not retried: with the dict
    [LLMGateway.complete] returns for an empty completion, the first call
    already marks the step COMPLETED with the empty string as its output,
    and no second call is made. *)
Theorem execute_step_empty_content_completes :
  execute_step empty_content_llm step_A [] =
    (mkResult 1 (PyStr "") None true,
     mkStep 1 "A" "m" StepStatus.COMPLETED [] (PyStr "") None (Some 0) (Some 2),
     [ENow; ECall 1; ENow]).
Proof. reflexivity. Qed.

(** C9: leaving IN_PROGRESS by failure does not stamp [completed_at]
    ([_mark_step_failed] sets only [status] and [error]), while leaving it
    by success does. *)
Theorem execute_step_failure_leaves_completed_at_unset :
  completed_at (snd (fst (execute_step raising_llm step_A []))) = None /\
  status (snd (fst (execute_step raising_llm step_A []))) = StepStatus.FAILED /\
  started_at (snd (fst (execute_step raising_llm step_A []))) = Some 0 /\
  completed_at (snd (fst (execute_step empty_content_llm step_A []))) = Some 2.
Proof. repeat split; reflexivity. Qed.

(* ------------------------------------------------------------------ *)
(** ** What one step execution does *)

Lemma attempts_loop_spec llm atts : forall s le w,
  match attempts_loop llm atts s le w with
  | inl (r, s1, w1) =>
      r_success r = true /\ r_step_id r = step_id s /\ step_id s1 = step_id s /\
      dependencies s1 = dependencies s /\ status s1 = StepStatus.COMPLETED /\
      started_at s1 = started_at s /\
      exists recent, w1 = recent ++ w /\ Forall (own_event (step_id s)) recent
  | inr (_, w1) =>
      exists recent, w1 = recent ++ w /\ Forall (own_event (step_id s)) recent
  end.
Proof.
  induction atts as [|a atts IH]; intros s le w; simpl.
  { exists []. split; [reflexivity|constructor]. }
  assert (Hc : own_event (step_id s) (ECall (step_id s))) by (left; reflexivity).
  assert (Hs : forall d, own_event (step_id s) (ESleep d)) by (intros d; right; left; eauto).
  assert (Hn : own_event (step_id s) ENow) by (right; right; reflexivity).
  destruct (llm (ncalls w)) as [msg|[|item resp]].
  - match goal with
    | |- context [attempts_loop llm atts s (Some msg) ?w2] =>
        specialize (IH s (Some msg) w2);
        destruct (attempts_loop llm atts s (Some msg) w2) as [[[r s1] w1]|[le' w1]]
    end.
    + destruct IH as (? & ? & ? & ? & ? & ? & recent & -> & Hr).
      repeat (split; [assumption|]).
      destruct (_ <? _)%nat.
      * exists (recent ++ [ESleep (RETRY_DELAY_BASE * 2 ^ Z.of_nat a); ECall (step_id s)]).
        rewrite <- app_assoc. split; [reflexivity|]. apply Forall_app; auto.
      * exists (recent ++ [ECall (step_id s)]).
        rewrite <- app_assoc. split; [reflexivity|]. apply Forall_app; auto.
    + destruct IH as (recent & -> & Hr).
      destruct (_ <? _)%nat.
      * exists (recent ++ [ESleep (RETRY_DELAY_BASE * 2 ^ Z.of_nat a); ECall (step_id s)]).
        rewrite <- app_assoc. split; [reflexivity|]. apply Forall_app; auto.
      * exists (recent ++ [ECall (step_id s)]).
        rewrite <- app_assoc. split; [reflexivity|]. apply Forall_app; auto.
  - specialize (IH s (Some "Empty response") (ECall (step_id s) :: w)).
    destruct (attempts_loop llm atts s _ _) as [[[r s1] w1]|[le' w1]].
    + destruct IH as (? & ? & ? & ? & ? & ? & recent & -> & Hr).
      repeat (split; [assumption|]).
      exists (recent ++ [ECall (step_id s)]).
      rewrite <- app_assoc. split; [reflexivity|]. apply Forall_app; auto.
    + destruct IH as (recent & -> & Hr).
      exists (recent ++ [ECall (step_id s)]).
      rewrite <- app_assoc. split; [reflexivity|]. apply Forall_app; auto.
  - repeat split; try reflexivity.
    exists [ENow; ECall (step_id s)]. split; [reflexivity|].
    constructor; [exact Hn|constructor; [exact Hc|constructor]].
Qed.

Lemma execute_step_spec llm s w r s' w' :
  execute_step llm s w = (r, s', w') ->
  step_id s' = step_id s /\ dependencies s' = dependencies s /\ r_step_id r = step_id s /\
  ((r_success r = true /\ status s' = StepStatus.COMPLETED) \/
   (r_success r = false /\ status s' = StepStatus.FAILED)) /\
  started_at s' = Some (Z.of_nat (length w)) /\
  exists recent, w' = recent ++ ENow :: w /\ Forall (own_event (step_id s)) recent.
Proof.
  unfold execute_step, _mark_step_started, now, _execute_with_retries. cbn [fst snd].
  match goal with
  | |- context [attempts_loop llm ?atts ?s1 None ?w1] =>
      pose proof (attempts_loop_spec llm atts s1 None w1) as Hl;
      destruct (attempts_loop llm atts s1 None w1) as [[[r0 s0] w0]|[le w0]]
  end; cbn in Hl; intros [= <- <- <-].
  - destruct Hl as (? & ? & ? & ? & ? & ? & recent & -> & Hr).
    repeat (split; [assumption|]). split; [left; auto|]. split; [assumption|].
    exists recent. auto.
  - destruct Hl as (recent & -> & Hr). cbn.
    repeat (split; [reflexivity|]). split; [right; auto|]. split; [reflexivity|].
    exists recent. auto.
Qed.

(* ------------------------------------------------------------------ *)
(** ** What one batch does *)

Lemma map_insert_same {B} (f : ExecutionStep -> B) (g : list ExecutionStep) i x :
  f x = f (g !!! i) -> map f (<[i:=x]> g) = map f g.
Proof.
  induction g as [|y g IH] in i |- *; destruct i; simpl; intros H;
    [reflexivity|reflexivity|rewrite H; reflexivity|rewrite IH; auto].
Qed.

Lemma progressed_refl g : progressed g g.
Proof. intros k. left. reflexivity. Qed.

Lemma progressed_trans g1 g2 g3 :
  progressed g1 g2 -> progressed g2 g3 -> progressed g1 g3.
Proof.
  intros H12 H23 k. destruct (H23 k) as [E|C]; [|right; exact C].
  rewrite E. apply H12.
Qed.

Lemma run_batch_spec llm batch : forall g sc w b g1 sc1 w1,
  run_batch llm batch g sc w = (b, g1, sc1, w1) ->
  (forall i, In i batch -> (i < length g)%nat) ->
  map step_id g1 = map step_id g /\ map dependencies g1 = map dependencies g /\
  (forall k, ~ In k batch -> g1 !!! k = g !!! k) /\
  sc <= sc1 <= sc + Z.of_nat (length batch) /\
  (batch <> [] -> sc + 1 <= sc1) /\
  (b = false -> progressed g g1) /\
  (b = true -> exists j w_mid recent,
      In j batch /\
      (forall k, k <> j -> g1 !!! k = g !!! k \/ status (g1 !!! k) = StepStatus.COMPLETED) /\
      status (g1 !!! j) = StepStatus.FAILED /\
      started_at (g1 !!! j) = Some (Z.of_nat (length w_mid)) /\
      w1 = recent ++ ENow :: w_mid /\ Forall (own_event (step_id (g1 !!! j))) recent).
Proof.
  induction batch as [|i rest IH]; intros g sc w b g1 sc1 w1 H Hlt; simpl in H.
  { injection H as <- <- <- <-.
    split; [reflexivity|]. split; [reflexivity|]. split; [intros k _; reflexivity|].
    split; [simpl; lia|]. split; [intros Hn; exfalso; apply Hn; reflexivity|].
    split; [intros _; apply progressed_refl|]. intros Hb; discriminate Hb. }
  destruct (execute_step llm (g !!! i) w) as [[r s'] w'] eqn:He.
  destruct (execute_step_spec _ _ _ _ _ _ He)
    as (Hid & Hdeps & _ & Hst & Hstart & recent & Hw' & Hown).
  assert (Hi : (i < length g)%nat) by (apply Hlt; left; reflexivity).
  assert (Hget : forall k, <[i:=s']> g !!! k = if decide (k = i) then s' else g !!! k).
  { intros k. destruct (decide (k = i)) as [->|Hne].
    - apply list_lookup_total_insert_eq, Hi.
    - apply list_lookup_total_insert_ne. congruence. }
  assert (Hmid : map step_id (<[i:=s']> g) = map step_id g /\
                 map dependencies (<[i:=s']> g) = map dependencies g).
  { split; apply map_insert_same; assumption. }
  destruct (r_success r) eqn:Hs; simpl in H.
  - destruct Hst as [[_ Hc]|[Hf _]]; [|discriminate].
    destruct (IH _ _ _ _ _ _ _ H) as (Hids & Hds & Hframe & Hsc & _ & Hprog & Hfail).
    { intros i' Hi'. rewrite length_insert. apply Hlt. right. exact Hi'. }
    assert (Hp : progressed g (<[i:=s']> g)).
    { intros k. rewrite Hget. destruct (decide (k = i)); [right; exact Hc|left; reflexivity]. }
    split; [rewrite Hids; apply Hmid|]. split; [rewrite Hds; apply Hmid|].
    split.
    { intros k Hk. rewrite Hframe by (intros Hk'; apply Hk; right; exact Hk').
      rewrite Hget. destruct (decide (k = i)) as [->|]; [exfalso; apply Hk; left; reflexivity|reflexivity]. }
    split; [simpl length; lia|]. split; [lia|].
    split; [intros Hb; apply (progressed_trans _ _ _ Hp (Hprog Hb))|].
    intros Hb. destruct (Hfail Hb) as (j & w_mid & rec & Hj & Hother & Hjf & Hjs & Hw1 & Hjo).
    exists j, w_mid, rec. split; [right; exact Hj|].
    split; [|auto]. intros k Hk. destruct (Hother k Hk) as [E|C]; [|right; exact C].
    rewrite E. apply Hp.
  - destruct Hst as [[Ht _]|[_ Hf]]; [discriminate|].
    injection H as <- <- <- <-.
    split; [apply Hmid|]. split; [apply Hmid|].
    split.
    { intros k Hk. rewrite Hget. destruct (decide (k = i)) as [->|];
        [exfalso; apply Hk; left; reflexivity|reflexivity]. }
    split; [simpl length; lia|]. split; [lia|]. split; [discriminate|].
    intros _. exists i, w, recent. split; [left; reflexivity|].
    rewrite (Hget i). destruct (decide (i = i)) as [_|]; [|congruence].
    split.
    { intros k Hk. left. rewrite Hget. destruct (decide (k = i)); [congruence|reflexivity]. }
    split; [exact Hf|]. split; [exact Hstart|]. split; [exact Hw'|]. rewrite Hid. exact Hown.
Qed.

(* ------------------------------------------------------------------ *)
(** ** The [while] loop *)

Lemma executable_refs_lt g i : In i (executable_refs g) -> (i < length g)%nat.
Proof.
  unfold executable_refs, get_executable_steps_by. cbv zeta.
  intros Hi. apply filter_In in Hi as [Hi _]. apply filter_In in Hi as [Hi _].
  apply in_seq in Hi. lia.
Qed.

Lemma executable_refs_length g : (length (executable_refs g) <= length g)%nat.
Proof.
  unfold executable_refs, get_executable_steps_by. cbv zeta.
  etransitivity; [apply List.filter_length_le|].
  etransitivity; [apply List.filter_length_le|]. rewrite length_seq. lia.
Qed.

Lemma while_loop_spec llm ms fuel : forall g sc w,
  ms - sc <= Z.of_nat fuel ->
  match while_loop llm fuel ms g sc w with
  | LoopFuelOut => False
  | LoopBreak g1 sc1 w1 =>
      map step_id g1 = map step_id g /\ map dependencies g1 = map dependencies g /\
      sc <= sc1 <= Z.max sc (ms - 1 + Z.of_nat (length g)) /\ progressed g g1
  | LoopFailed g1 sc1 w1 =>
      map step_id g1 = map step_id g /\ map dependencies g1 = map dependencies g /\
      sc <= sc1 <= Z.max sc (ms - 1 + Z.of_nat (length g)) /\
      exists j w_mid recent,
        (forall k, k <> j -> g1 !!! k = g !!! k \/ status (g1 !!! k) = StepStatus.COMPLETED) /\
        status (g1 !!! j) = StepStatus.FAILED /\
        started_at (g1 !!! j) = Some (Z.of_nat (length w_mid)) /\
        w1 = recent ++ ENow :: w_mid /\ Forall (own_event (step_id (g1 !!! j))) recent
  end.
Proof.
  induction fuel as [|f IH]; intros g sc w Hfuel; cbn [while_loop].
  all: destruct (Z.ltb_spec sc ms) as [Hlt|Hge];
    [|split; [reflexivity|]; split; [reflexivity|]; split; [lia|apply progressed_refl]].
  { lia. }
  destruct (executable_refs g) as [|i0 rest0] eqn:Hb.
  { split; [reflexivity|]. split; [reflexivity|]. split; [lia|apply progressed_refl]. }
  destruct (run_batch llm (i0 :: rest0) g sc w) as [[[b g1] sc1] w1] eqn:Hr.
  destruct (run_batch_spec _ _ _ _ _ _ _ _ _ Hr) as (Hids & Hds & _ & Hsc & Hsc1 & Hprog & Hfail).
  { intros i Hi. apply executable_refs_lt. rewrite Hb. exact Hi. }
  pose proof (executable_refs_length g) as Hblen. rewrite Hb in Hblen.
  specialize (Hsc1 ltac:(discriminate)).
  assert (Hlen : length g1 = length g).
  { rewrite <- (length_map step_id g1), <- (length_map step_id g). congruence. }
  destruct b.
  { split; [exact Hids|]. split; [exact Hds|]. split; [lia|].
    destruct (Hfail eq_refl) as (j & w_mid & rec & _ & Hrest). exists j, w_mid, rec. exact Hrest. }
  specialize (Hprog eq_refl).
  destruct (executable_refs g1) as [|i1 rest1] eqn:Hb1.
  { split; [exact Hids|]. split; [exact Hds|]. split; [lia|exact Hprog]. }
  specialize (IH g1 sc1 w1 ltac:(lia)).
  destruct (while_loop llm f ms g1 sc1 w1) as [g2 sc2 w2|g2 sc2 w2|]; [| |exact IH].
  - destruct IH as (Hids2 & Hds2 & Hsc2 & Hprog2).
    split; [congruence|]. split; [congruence|]. split; [lia|].
    apply (progressed_trans _ _ _ Hprog Hprog2).
  - destruct IH as (Hids2 & Hds2 & Hsc2 & j & w_mid & rec & Hother & Hrest).
    split; [congruence|]. split; [congruence|]. split; [lia|].
    exists j, w_mid, rec. split; [|exact Hrest].
    intros k Hk. destruct (Hother k Hk) as [E|C]; [|right; exact C].
    rewrite E. apply Hprog.
Qed.

(** C7 (as amended): [execute_plan] always returns: when the graph
    passes validation it returns normally (the bounded loop model never
    runs out of fuel), otherwise it raises the validation error.  The
    number of step executions [step_count] is at most
    [max(0, max_steps - 1 + len(execution_graph))]: [max_steps] is only
    compared before a batch, and a whole batch runs. *)
Theorem execute_plan_terminates llm (plan : Plan) (max_steps : Z) (w : world) :
  run_result (execute_plan llm plan max_steps w) = _validate_execution_graph (execution_graph plan) /\
  0 <= run_step_count (execute_plan llm plan max_steps w)
    <= Z.max 0 (max_steps - 1 + Z.of_nat (length (execution_graph plan))).
Proof.
  unfold execute_plan.
  destruct (_validate_execution_graph (execution_graph plan)) as [u|e] eqn:Hv;
    [|split; [reflexivity|simpl; lia]].
  destruct u. cbn zeta. cbn [execution_graph].
  assert (Hf : max_steps - 0 <= Z.of_nat (Z.to_nat max_steps)) by lia.
  pose proof (while_loop_spec llm max_steps _ (execution_graph plan) 0 w Hf) as H.
  destruct (while_loop llm (Z.to_nat max_steps) max_steps (execution_graph plan) 0 w)
    as [g sc w1|g sc w1|]; [| |contradiction].
  - destruct H as (_ & _ & Hsc & _).
    destruct (all_completed g); simpl; split; auto; lia.
  - destruct H as (_ & _ & Hsc & _). simpl. split; auto; lia.
Qed.

(** C7, counterexample: with [max_steps = 1] and two independent steps,
    both are executed in the first batch, so [step_count] reaches 2. *)
Lemma execute_plan_exceeds_max_steps :
  run_step_count (execute_plan (answering_llm "x") independent_plan 1 []) = 2 /\
  plan_status (run_plan (execute_plan (answering_llm "x") independent_plan 1 [])) =
    PlanStatus.COMPLETED.
Proof. vm_compute. split; reflexivity. Qed.

(** C3: a failed step ends the run.  If [execute_plan] returns and a step
    [k] that was not FAILED before is FAILED afterwards, then the plan is
    FAILED, every other step is unchanged or COMPLETED (no other step was
    started and left behind), and after [k] was started the world holds
    only [k]'s own calls, sleeps and clock reads: no further step of the
    batch or of a later batch ran.  In the spec's scenario (A fails on
    every attempt, B depends on A) B is still PENDING and the plan is
    FAILED. *)
Theorem execute_plan_stops_at_failure :
  (forall llm (plan : Plan) (max_steps : Z) (w : world) (k : nat),
    let r := execute_plan llm plan max_steps w in
    let g1 := execution_graph (run_plan r) in
    run_result r = Ok tt ->
    status (execution_graph plan !!! k) <> StepStatus.FAILED ->
    status (g1 !!! k) = StepStatus.FAILED ->
    plan_status (run_plan r) = PlanStatus.FAILED /\
    (forall k', k' <> k ->
       g1 !!! k' = execution_graph plan !!! k' \/ status (g1 !!! k') = StepStatus.COMPLETED) /\
    exists w_mid recent,
      started_at (g1 !!! k) = Some (Z.of_nat (length w_mid)) /\
      run_world r = recent ++ ENow :: w_mid /\
      Forall (own_event (step_id (g1 !!! k))) recent) /\
  (forall llm (msg : nat -> string) (max_steps : Z) (w : world),
    (forall n, llm n = LRaise (msg n)) -> 1 <= max_steps ->
    status (execution_graph (run_plan (execute_plan llm plan_AB max_steps w)) !!! 1%nat)
      = StepStatus.PENDING /\
    plan_status (run_plan (execute_plan llm plan_AB max_steps w)) = PlanStatus.FAILED).
Proof.
  split.
  - intros llm plan ms w k r g1 Hok Hk0 Hk1. subst r g1. revert Hok Hk1. unfold execute_plan.
    destruct (_validate_execution_graph (execution_graph plan)) as [u|e];
      [|simpl; discriminate].
    cbn zeta. cbn [execution_graph].
    assert (Hf : ms - 0 <= Z.of_nat (Z.to_nat ms)) by lia.
    pose proof (while_loop_spec llm ms _ (execution_graph plan) 0 w Hf) as H.
    destruct (while_loop llm (Z.to_nat ms) ms (execution_graph plan) 0 w)
      as [g sc w1|g sc w1|].
    + destruct H as (_ & _ & _ & Hprog). intros _ Hk1.
      exfalso. destruct (Hprog k) as [E|E].
      * apply Hk0. rewrite <- E. destruct (all_completed g); exact Hk1.
      * destruct (all_completed g); simpl in Hk1; congruence.
    + destruct H as (_ & _ & _ & j & w_mid & rec & Hother & Hj & Hst & Hw & Hown).
      intros _ Hk1. simpl in Hk1 |- *.
      assert (k = j) as ->.
      { destruct (decide (k = j)) as [E|Ne]; [exact E|exfalso].
        destruct (Hother k Ne) as [E|E]; [apply Hk0; rewrite <- E|]; congruence. }
      split; [reflexivity|]. split; [exact Hother|].
      exists w_mid, rec. auto.
    + simpl. discriminate.
  - intros llm msg ms w H Hms. unfold execute_plan.
    replace (_validate_execution_graph (execution_graph plan_AB)) with (Ok tt : res unit)
      by (vm_compute; reflexivity).
    destruct (Z.to_nat ms) as [|f] eqn:Ef; [lia|].
    cbn zeta. cbn [execution_graph while_loop].
    rewrite (proj2 (Z.ltb_lt 0 ms) ltac:(lia)).
    replace (executable_refs (execution_graph plan_AB)) with [0%nat] by (vm_compute; reflexivity).
    simpl.
    unfold execute_step, _mark_step_started, now, _execute_with_retries. simpl. rewrite !H. simpl.
    split; reflexivity.
Qed.

Lemma execute_plan_stops_at_failure_witness :
  let r := execute_plan raising_llm plan_AB 100 [] in
  status (execution_graph r.(run_plan) !!! 0%nat) = StepStatus.FAILED /\
  status (execution_graph r.(run_plan) !!! 1%nat) = StepStatus.PENDING /\
  plan_status (run_plan r) = PlanStatus.FAILED.
Proof.
  cbv zeta.
  destruct execute_plan_stops_at_failure as [G S].
  destruct (S raising_llm (fun _ => "timeout") 100 [] (fun n => eq_refl) ltac:(lia)) as [HB HP].
  destruct (G raising_llm plan_AB 100 [] 0%nat ltac:(vm_compute; reflexivity)
              ltac:(vm_compute; discriminate) ltac:(vm_compute; reflexivity)) as [HP' _].
  split; [vm_compute; reflexivity|]. split; [exact HB|exact HP'].
Defined.

(* ------------------------------------------------------------------ *)
(** ** [_aggregate_outputs] *)

Lemma validate_ok_nodup g u :
  _validate_execution_graph g = Ok u -> List.NoDup (map step_id g).
Proof.
  unfold _validate_execution_graph. cbv zeta.
  destruct (Nat.eqb_spec (length (steps_by_id g)) (length g)) as [Hl|Hl]; cbn [negb].
  - intros _. apply steps_by_id_length_iff, Hl.
  - discriminate.
Qed.

Lemma step_key_inj a b : step_key a = step_key b -> a = b.
Proof. unfold step_key, fmt_int. simpl. intros H. injection H as H. apply (inj pretty), H. Qed.

Lemma dict_set_fresh {K V} (keq : K -> K -> bool) (k : K) (v : V) d :
  (forall k', In k' (map fst d) -> keq k k' = false) -> dict_set keq k v d = d ++ [(k, v)].
Proof.
  induction d as [|[k' v'] d IH]; intros Hn; [reflexivity|]. simpl in *.
  rewrite (Hn k' (or_introl eq_refl)). rewrite IH; [reflexivity|].
  intros k'' H. apply Hn. right. exact H.
Qed.

Lemma aggregate_fold l : forall acc,
  List.NoDup (map step_id l) ->
  (forall s, In s l -> ~ In (step_key (step_id s)) (map fst acc)) ->
  fold_left (fun outputs s =>
               if truthy (output s)
               then dict_set String.eqb (step_key (step_id s)) (output s) outputs
               else outputs) l acc = acc ++ outputs_by_key l.
Proof.
  unfold outputs_by_key.
  induction l as [|s l IH]; intros acc Hnd Hfresh; simpl; [rewrite app_nil_r; reflexivity|].
  inversion Hnd as [|x y Hs Hnd']; subst.
  destruct (truthy (output s)) eqn:Ht.
  - rewrite dict_set_fresh.
    2:{ intros k' Hk'. apply String.eqb_neq. intros <-. apply (Hfresh s (or_introl eq_refl) Hk'). }
    rewrite IH; [simpl; rewrite <- app_assoc; reflexivity|exact Hnd'|].
    intros t Ht' Hin. rewrite map_app, in_app_iff in Hin. destruct Hin as [Hin|[Hin|[]]].
    + apply (Hfresh t (or_intror Ht') Hin).
    + simpl in Hin. apply step_key_inj in Hin. apply Hs. rewrite Hin. apply in_map, Ht'.
  - apply IH; [exact Hnd'|]. intros t Ht'. apply Hfresh. right. exact Ht'.
Qed.

Lemma aggregate_outputs_nodup g :
  List.NoDup (map step_id g) -> _aggregate_outputs g = outputs_by_key g.
Proof. intros H. unfold _aggregate_outputs. apply aggregate_fold; [exact H|]. intros s _ []. Qed.

Lemma all_completed_Forall g :
  all_completed g = true <->
  Forall (fun s => status s = StepStatus.COMPLETED \/ status s = StepStatus.SKIPPED) g.
Proof.
  unfold all_completed. rewrite forallb_forall, List.Forall_forall.
  split; intros H s Hs; specialize (H s Hs).
  - apply orb_true_iff in H as [H|H]; apply StepStatus_eqb_eq in H; auto.
  - apply orb_true_iff. destruct H as [H|H]; [left|right]; apply StepStatus_eqb_eq, H.
Qed.

Lemma lookup_total_status_in (g : list ExecutionStep) j st :
  status (g !!! j) = st -> st <> StepStatus.PENDING -> exists s, In s g /\ status s = st.
Proof.
  rewrite list_lookup_total_alt. destruct (g !! j) as [s|] eqn:E; simpl.
  - intros H _. exists s. split; [|exact H]. apply list_elem_of_In. eapply list_elem_of_lookup_2, E.
  - intros <- H. exfalso. apply H. reflexivity.
Qed.

(** C6 (as amended): when [execute_plan] returns with every step of the
    plan COMPLETED or SKIPPED, the plan is COMPLETED and [final_output]
    maps ["step_<id>"] to the output of each step, COMPLETED or SKIPPED,
    whose output is truthy, in graph order; steps whose output is [None]
    or the empty string get no key.  For the spec's plan whose steps 1, 2
    and 3 complete with outputs "a", "b" and "c", [final_output] is
    [{"step_1": "a", "step_2": "b", "step_3": "c"}]. *)
Theorem execute_plan_final_output :
  (forall llm (plan : Plan) (max_steps : Z) (w : world),
    let r := execute_plan llm plan max_steps w in
    run_result r = Ok tt ->
    Forall (fun s => status s = StepStatus.COMPLETED \/ status s = StepStatus.SKIPPED)
      (execution_graph (run_plan r)) ->
    plan_status (run_plan r) = PlanStatus.COMPLETED /\
    final_output (run_plan r) = Some (outputs_by_key (execution_graph (run_plan r)))) /\
  (map status (execution_graph (run_plan (execute_plan abc_llm plan_123 100 [])))
     = [StepStatus.COMPLETED; StepStatus.COMPLETED; StepStatus.COMPLETED] /\
   final_output (run_plan (execute_plan abc_llm plan_123 100 [])) =
     Some [("step_1", PyStr "a"); ("step_2", PyStr "b"); ("step_3", PyStr "c")]).
Proof.
  split; [|vm_compute; split; reflexivity].
  intros llm plan ms w r Hok Hall. subst r. revert Hok Hall. unfold execute_plan.
  destruct (_validate_execution_graph (execution_graph plan)) as [u|e] eqn:Hv;
    [|simpl; discriminate].
  apply validate_ok_nodup in Hv.
  cbn zeta. cbn [execution_graph].
  assert (Hf : ms - 0 <= Z.of_nat (Z.to_nat ms)) by lia.
  pose proof (while_loop_spec llm ms _ (execution_graph plan) 0 w Hf) as H.
  destruct (while_loop llm (Z.to_nat ms) ms (execution_graph plan) 0 w)
    as [g sc w1|g sc w1|].
  - destruct H as (Hids & _). intros _.
    destruct (all_completed g) eqn:Hc; simpl; intros Hall.
    + split; [reflexivity|]. rewrite aggregate_outputs_nodup; [reflexivity|congruence].
    + apply all_completed_Forall in Hall. congruence.
  - destruct H as (_ & _ & _ & j & _ & _ & _ & Hj & _). simpl. intros _ Hall. exfalso.
    destruct (lookup_total_status_in g j _ Hj ltac:(discriminate)) as (s & Hs & Hst).
    rewrite List.Forall_forall in Hall. destruct (Hall s Hs); congruence.
  - simpl. discriminate.
Qed.

(** C6, counterexample: step 1 completes with the empty reply and gets no
    key, and the SKIPPED step 2 gets one for its output. *)
Lemma execute_plan_final_output_skipped :
  map status (execution_graph (run_plan (execute_plan empty_content_llm plan_skip 100 [])))
    = [StepStatus.COMPLETED; StepStatus.SKIPPED] /\
  plan_status (run_plan (execute_plan empty_content_llm plan_skip 100 [])) = PlanStatus.COMPLETED /\
  final_output (run_plan (execute_plan empty_content_llm plan_skip 100 [])) =
    Some [("step_2", PyStr "s")].
Proof. vm_compute. repeat split. Qed.

Lemma execute_plan_final_output_witness :
  let r := execute_plan abc_llm plan_123 100 [] in
  plan_status (run_plan r) = PlanStatus.COMPLETED /\
  final_output (run_plan r) = Some [("step_1", PyStr "a"); ("step_2", PyStr "b"); ("step_3", PyStr "c")].
Proof.
  cbv zeta. destruct execute_plan_final_output as [G [_ Hout]].
  destruct (G abc_llm plan_123 100 [] ltac:(vm_compute; reflexivity)
              ltac:(vm_compute; repeat constructor)) as [HP _].
  split; [exact HP|exact Hout].
Defined.

(* ------------------------------------------------------------------ *)
(** ** Steps that are never scheduled *)

Lemma lookup_total_In (g : list ExecutionStep) r : (r < length g)%nat -> In (g !!! r) g.
Proof.
  intros Hr. apply list_elem_of_In. apply list_elem_of_lookup_total_2. exact Hr.
Qed.

Lemma executable_refs_In g i :
  In i (executable_refs g) ->
  status (g !!! i) = StepStatus.PENDING /\
  forall dep, In dep (dependencies (g !!! i)) ->
    exists t, In t g /\ step_id t = dep /\ status t = StepStatus.COMPLETED.
Proof.
  unfold executable_refs, get_executable_steps_by. cbv zeta.
  intros Hi. apply filter_In in Hi as [Hi Hd]. apply filter_In in Hi as [_ Hp].
  split; [apply StepStatus_eqb_eq, Hp|].
  intros dep Hdep. rewrite forallb_forall in Hd. specialize (Hd dep Hdep).
  apply mem_In, in_map_iff in Hd as (r & <- & Hr). apply filter_In in Hr as [Hr Hc].
  apply in_seq in Hr. exists (g !!! r). split; [apply lookup_total_In; lia|].
  split; [reflexivity|apply StepStatus_eqb_eq, Hc].
Qed.

Lemma NoDup_map_same {A B} (f : A -> B) (l : list A) x y :
  List.NoDup (map f l) -> In x l -> In y l -> f x = f y -> x = y.
Proof.
  induction l as [|a l IH]; simpl; [intros _ []|].
  intros Hnd. inversion Hnd as [|z zs Ha Hnd']; subst.
  intros [<-|Hx] [<-|Hy] E; auto.
  - exfalso. apply Ha. rewrite E. apply in_map, Hy.
  - exfalso. apply Ha. rewrite <- E. apply in_map, Hx.
Qed.

Lemma while_loop_invariant llm ms (I : list ExecutionStep -> Prop) :
  (forall g sc w b g1 sc1 w1,
     I g -> run_batch llm (executable_refs g) g sc w = (b, g1, sc1, w1) -> I g1) ->
  forall fuel g sc w, I g ->
  match while_loop llm fuel ms g sc w with
  | LoopBreak g1 _ _ | LoopFailed g1 _ _ => I g1
  | LoopFuelOut => True
  end.
Proof.
  intros Hstep fuel. induction fuel as [|f IH]; intros g sc w HI; cbn [while_loop].
  all: destruct (sc <? ms); [|exact HI].
  { exact Logic.I. }
  remember (executable_refs g) as batch eqn:Hb.
  destruct batch as [|i0 rest0]; [exact HI|].
  destruct (run_batch llm (i0 :: rest0) g sc w) as [[[b g1] sc1] w1] eqn:Hr.
  rewrite Hb in Hr. pose proof (Hstep _ _ _ _ _ _ _ HI Hr) as HI1.
  destruct b; [exact HI1|].
  destruct (executable_refs g1); [exact HI1|]. apply IH, HI1.
Qed.

(** The invariant of C10: the SKIPPED step at [m] and the PENDING step at
    [k] that depends on it are never scheduled, hence never change. *)
Lemma skipped_dependency_invariant llm (s t : ExecutionStep) k m dep :
  status s = StepStatus.PENDING -> In dep (dependencies s) ->
  step_id t = dep -> status t = StepStatus.SKIPPED ->
  forall g sc w b g1 sc1 w1,
  (List.NoDup (map step_id g) /\ (k < length g)%nat /\ (m < length g)%nat /\
   g !!! k = s /\ g !!! m = t) ->
  run_batch llm (executable_refs g) g sc w = (b, g1, sc1, w1) ->
  (List.NoDup (map step_id g1) /\ (k < length g1)%nat /\ (m < length g1)%nat /\
   g1 !!! k = s /\ g1 !!! m = t).
Proof.
  intros Hs Hdep Ht Hst g sc w b g1 sc1 w1 (Hnd & Hk & Hm & Egk & Egm) Hr.
  destruct (run_batch_spec _ _ _ _ _ _ _ _ _ Hr) as (Hids & _ & Hsame & _).
  { apply executable_refs_lt. }
  assert (Hlen : length g1 = length g).
  { rewrite <- (length_map step_id g1), <- (length_map step_id g). congruence. }
  assert (Hnk : ~ In k (executable_refs g)).
  { intros Hin. destruct (executable_refs_In g k Hin) as [_ Hd].
    rewrite Egk in Hd. destruct (Hd dep Hdep) as (t' & Ht' & Eid & Hc).
    assert (t' = t) as ->.
    { apply (NoDup_map_same step_id g); [exact Hnd|exact Ht'| |congruence].
      rewrite <- Egm. apply lookup_total_In, Hm. }
    congruence. }
  assert (Hnm : ~ In m (executable_refs g)).
  { intros Hin. destruct (executable_refs_In g m Hin) as [Hp _]. congruence. }
  split; [rewrite Hids; exact Hnd|]. rewrite Hlen.
  split; [exact Hk|]. split; [exact Hm|].
  split; [rewrite Hsame; assumption|rewrite Hsame; assumption].
Qed.

(** C10 (as amended): when step ids are unique, a PENDING step that
    depends on the id of a SKIPPED step is not returned by
    [get_executable_steps] (only COMPLETED steps satisfy a dependency),
    and [execute_plan] on a plan containing it either raises the
    validation error, leaving the plan as it was, or returns with the
    plan FAILED and that step untouched, still PENDING. *)
Theorem skipped_dependency_never_ready (g : list ExecutionStep) (k m : nat) (dep : Z) :
  List.NoDup (map step_id g) ->
  (k < length g)%nat -> status (g !!! k) = StepStatus.PENDING ->
  In dep (dependencies (g !!! k)) ->
  (m < length g)%nat -> step_id (g !!! m) = dep -> status (g !!! m) = StepStatus.SKIPPED ->
  ~ In (g !!! k) (get_executable_steps g) /\
  forall llm (plan : Plan) (max_steps : Z) (w : world),
    execution_graph plan = g ->
    let r := execute_plan llm plan max_steps w in
    (exists e, _validate_execution_graph g = Raise e /\ run_result r = Raise e /\
               run_plan r = plan) \/
    (run_result r = Ok tt /\ plan_status (run_plan r) = PlanStatus.FAILED /\
     execution_graph (run_plan r) !!! k = g !!! k).
Proof.
  intros Hnd Hk Hpk Hdep Hm Hid Hsk. split.
  - rewrite get_executable_steps_eq. intros Hin.
    apply list_elem_of_In, list_elem_of_filter in Hin as [[_ HF] _].
    rewrite List.Forall_forall in HF. specialize (HF dep Hdep).
    apply List.Exists_exists in HF as (t' & Ht' & Eid & Hc).
    assert (t' = g !!! m) as ->.
    { apply (NoDup_map_same step_id g); [exact Hnd|exact Ht'|apply lookup_total_In, Hm|congruence]. }
    congruence.
  - intros llm plan ms w Eg r. subst r. unfold execute_plan. rewrite Eg.
    destruct (_validate_execution_graph g) as [u|e] eqn:Hv.
    2:{ left. exists e. auto. }
    right. cbn zeta. cbn [execution_graph].
    pose proof (while_loop_invariant llm ms _
                  (skipped_dependency_invariant llm (g !!! k) (g !!! m) k m dep Hpk Hdep Hid Hsk)
                  (Z.to_nat ms) g 0 w (conj Hnd (conj Hk (conj Hm (conj eq_refl eq_refl))))) as HI.
    assert (Hf : ms - 0 <= Z.of_nat (Z.to_nat ms)) by lia.
    pose proof (while_loop_spec llm ms _ g 0 w Hf) as Hsp.
    destruct (while_loop llm (Z.to_nat ms) ms g 0 w) as [g1 sc w1|g1 sc w1|];
      [| |contradiction].
    + destruct HI as (_ & Hk1 & _ & Ek & _).
      destruct (all_completed g1) eqn:Hc.
      * exfalso. apply all_completed_Forall in Hc. rewrite List.Forall_forall in Hc.
        destruct (Hc (g1 !!! k) (lookup_total_In _ _ Hk1)) as [E|E]; congruence.
      * simpl. auto.
    + destruct HI as (_ & _ & _ & Ek & _). simpl. auto.
Qed.

Lemma skipped_dependency_never_ready_witness :
  ~ In (execution_graph plan_skipdep !!! 1%nat) (get_executable_steps (execution_graph plan_skipdep)) /\
  plan_status (run_plan (execute_plan raising_llm plan_skipdep 100 [])) = PlanStatus.FAILED.
Proof.
  destruct (skipped_dependency_never_ready (execution_graph plan_skipdep) 1 0 1
              ltac:(vm_compute; repeat constructor; simpl; intuition discriminate)
              ltac:(simpl; lia) eq_refl ltac:(simpl; auto) ltac:(simpl; lia) eq_refl eq_refl)
    as [Hn Hrun].
  split; [exact Hn|].
  destruct (Hrun raising_llm plan_skipdep 100 [] eq_refl) as [(e & He & _)|(_ & HF & _)].
  - vm_compute in He. discriminate.
  - exact HF.
Defined.

(** C10, counterexample: with the id 1 shared by a SKIPPED and a COMPLETED
    step, [get_executable_steps] returns the step depending on 1, and
    [execute_plan] raises (duplicate ids) instead of ending FAILED. *)
Lemma skipped_dependency_duplicate_id :
  get_executable_steps (execution_graph plan_dup_skipdep) =
    [mkStep 2 "B" "m" StepStatus.PENDING [1] PyNone None None None] /\
  run_result (execute_plan raising_llm plan_dup_skipdep 100 []) =
    Raise (ValueError "Execution graph contains duplicate step_id values") /\
  plan_status (run_plan (execute_plan raising_llm plan_dup_skipdep 100 [])) = PlanStatus.APPROVED.
Proof. vm_compute. repeat split. Qed.

(* ================================================================== *)
(** * Further properties of the router and its callers *)

(* ------------------------------------------------------------------ *)
(** ** [_get_previous_outputs] *)

Lemma dict_get_set_Z {V} (k k' : Z) (v : V) d :
  dict_get Z.eqb k (dict_set Z.eqb k' v d) =
    if Z.eqb k k' then Some v else dict_get Z.eqb k d.
Proof.
  induction d as [|[k'' v''] d IH]; simpl; [reflexivity|].
  destruct (Z.eqb_spec k' k'') as [->|Hne]; simpl.
  - destruct (Z.eqb k k''); reflexivity.
  - destruct (Z.eqb_spec k k'') as [->|]; rewrite ?IH.
    + destruct (Z.eqb_spec k'' k'); [congruence|reflexivity].
    + reflexivity.
Qed.

Lemma previous_outputs_get (g : list ExecutionStep) (cur : ExecutionStep) :
  List.NoDup (map step_id g) ->
  forall k v,
    dict_get Z.eqb k (_get_previous_outputs g cur) = Some v <->
    In k (dependencies cur) /\
    exists t, In t g /\ step_id t = k /\ status t = StepStatus.COMPLETED /\ output t = v.
Proof.
  unfold _get_previous_outputs.
  induction g as [|x l IH] using rev_ind; intros Hnd k v.
  { simpl. split; [discriminate|]. intros (_ & t & [] & _). }
  rewrite map_app in Hnd. simpl in Hnd.
  apply List.NoDup_remove in Hnd as [Hnd Hfresh]. rewrite app_nil_r in Hnd, Hfresh.
  specialize (IH Hnd). rewrite fold_left_app. cbn [fold_left].
  destruct (StepStatus.eqb (status x) StepStatus.COMPLETED && mem (step_id x) (dependencies cur))
    eqn:Hc.
  - apply andb_true_iff in Hc as [Hc Hm]. apply StepStatus_eqb_eq in Hc. apply mem_In in Hm.
    rewrite dict_get_set_Z. destruct (Z.eqb_spec k (step_id x)) as [->|Hne].
    + split.
      * intros [= <-]. split; [exact Hm|]. exists x. rewrite in_app_iff. simpl. auto.
      * intros (_ & t & Ht & Eid & _ & <-). rewrite in_app_iff in Ht.
        destruct Ht as [Ht|[<-|[]]]; [|reflexivity].
        exfalso. apply Hfresh. rewrite <- Eid. apply in_map, Ht.
    + rewrite IH. split.
      * intros (Hk & t & Ht & Rest). split; [exact Hk|]. exists t.
        rewrite in_app_iff. auto.
      * intros (Hk & t & Ht & Eid & Rest). split; [exact Hk|]. exists t.
        rewrite in_app_iff in Ht. destruct Ht as [Ht|[<-|[]]]; [auto|congruence].
  - rewrite IH. split.
    + intros (Hk & t & Ht & Rest). split; [exact Hk|]. exists t. rewrite in_app_iff. auto.
    + intros (Hk & t & Ht & Eid & Hst & Ho). split; [exact Hk|]. exists t.
      rewrite in_app_iff in Ht. destruct Ht as [Ht|[<-|[]]]; [auto|].
      exfalso. apply not_true_iff_false in Hc. apply Hc.
      apply andb_true_iff. split; [apply StepStatus_eqb_eq, Hst|apply mem_In; congruence].
Qed.

(** The outputs handed to a step's prompt: when step ids are unique,
    [_get_previous_outputs] maps an id [k] to [v] exactly when [k] is a
    dependency of the current step and the step with id [k] is COMPLETED
    with output [v]; dependencies on steps that are not COMPLETED get no
    entry. *)
Theorem get_previous_outputs_spec (g : list ExecutionStep) (cur : ExecutionStep) (k : Z) (v : pyval) :
  List.NoDup (map step_id g) ->
  dict_get Z.eqb k (_get_previous_outputs g cur) = Some v <->
  In k (dependencies cur) /\
  exists t, In t g /\ step_id t = k /\ status t = StepStatus.COMPLETED /\ output t = v.
Proof. intros Hnd. apply previous_outputs_get, Hnd. Qed.

Lemma get_previous_outputs_spec_witness :
  dict_get Z.eqb 1 (_get_previous_outputs [mkStep 1 "one" "m" StepStatus.COMPLETED [] (PyStr "a") None None None]
                       (mkStep 2 "two" "m" StepStatus.PENDING [1] PyNone None None None))
     = Some (PyStr "a") <->
   In 1 [1] /\ exists t, In t [mkStep 1 "one" "m" StepStatus.COMPLETED [] (PyStr "a") None None None] /\
     step_id t = 1 /\ status t = StepStatus.COMPLETED /\ output t = PyStr "a".
Proof.
  apply (get_previous_outputs_spec [mkStep 1 "one" "m" StepStatus.COMPLETED [] (PyStr "a") None None None]
           (mkStep 2 "two" "m" StepStatus.PENDING [1] PyNone None None None) 1 (PyStr "a")).
  repeat constructor. simpl. tauto.
Defined.

(** A step the scheduler returns gets the output of every one of its
    dependencies: when step ids are unique, for each dependency id of a
    step of [get_executable_steps], [_get_previous_outputs] holds the
    output of the COMPLETED step with that id. *)
Theorem get_previous_outputs_ready (g : list ExecutionStep) (cur : ExecutionStep) :
  List.NoDup (map step_id g) ->
  In cur (get_executable_steps g) ->
  forall dep, In dep (dependencies cur) ->
    exists t, In t g /\ step_id t = dep /\ status t = StepStatus.COMPLETED /\
              dict_get Z.eqb dep (_get_previous_outputs g cur) = Some (output t).
Proof.
  intros Hnd Hin dep Hdep. rewrite get_executable_steps_eq in Hin.
  apply list_elem_of_In, list_elem_of_filter in Hin as [[_ HF] _].
  rewrite List.Forall_forall in HF. specialize (HF dep Hdep).
  apply List.Exists_exists in HF as (t & Ht & Eid & Hc).
  exists t. split; [exact Ht|]. split; [exact Eid|]. split; [exact Hc|].
  apply previous_outputs_get; [exact Hnd|]. split; [exact Hdep|].
  exists t. auto.
Qed.

Lemma get_previous_outputs_ready_witness :
  let g := [mkStep 1 "one" "m" StepStatus.COMPLETED [] (PyStr "a") None None None;
            mkStep 2 "two" "m" StepStatus.PENDING [1] PyNone None None None] in
  exists t, In t g /\ step_id t = 1 /\ status t = StepStatus.COMPLETED /\
    dict_get Z.eqb 1 (_get_previous_outputs g (g !!! 1%nat)) = Some (output t).
Proof.
  cbv zeta.
  apply get_previous_outputs_ready.
  - repeat constructor; simpl; intuition discriminate.
  - vm_compute. left. reflexivity.
  - vm_compute. left. reflexivity.
Defined.

(* ------------------------------------------------------------------ *)
(** ** [Plan.add_step] *)

Lemma validate_not_malformed g :
  ~ graph_malformed g -> _validate_execution_graph g = Ok tt.
Proof.
  intros Hm. destruct (validate_cases g) as [Hr _].
  destruct (_validate_execution_graph g) as [[]|e] eqn:Hv; [reflexivity|].
  exfalso. apply Hm, (Hr e eq_refl).
Qed.

Lemma depends_on_add_step g s x y :
  depends_on (add_step g s) x y ->
  depends_on g x y \/ (x = step_id s /\ In y (dependencies s)).
Proof.
  intros (t & Ht & Eid & Hy). unfold add_step in Ht. rewrite in_app_iff in Ht.
  destruct Ht as [Ht|[<-|[]]]; [left; exists t; auto|right; auto].
Qed.

Lemma add_step_no_edge_into g s x y :
  ~ has_missing_dependency g ->
  ~ In (step_id s) (map step_id g) ->
  (forall d, In d (dependencies s) -> In d (map step_id g)) ->
  depends_on (add_step g s) x y -> y <> step_id s.
Proof.
  intros Hmiss Hfresh Hdeps Hxy ->.
  destruct (depends_on_add_step _ _ _ _ Hxy) as [(t & Ht & _ & Hy)|[_ Hy]].
  - apply Hmiss. exists t, (step_id s). auto.
  - apply Hfresh, Hdeps, Hy.
Qed.

Lemma add_step_path_old g s :
  ~ has_missing_dependency g ->
  ~ In (step_id s) (map step_id g) ->
  (forall d, In d (dependencies s) -> In d (map step_id g)) ->
  forall x y, clos_trans Z (depends_on (add_step g s)) x y -> x <> step_id s ->
  clos_trans Z (depends_on g) x y.
Proof.
  intros Hmiss Hfresh Hdeps x y Hxy. apply clos_trans_t1n in Hxy.
  induction Hxy as [x y Hxy|x y z Hxy _ IH]; intros Hx.
  - apply t_step. destruct (depends_on_add_step _ _ _ _ Hxy) as [E|[E _]]; [exact E|congruence].
  - apply t_trans with y.
    + apply t_step. destruct (depends_on_add_step _ _ _ _ Hxy) as [E|[E _]]; [exact E|congruence].
    + apply IH. apply (add_step_no_edge_into g s x y Hmiss Hfresh Hdeps Hxy).
Qed.

(** Growing a graph step by step keeps it valid: appending to a graph
    that passes [_validate_execution_graph] a step whose id is new and
    whose dependencies are ids already in the graph gives a graph that
    passes it too. *)
Theorem add_step_keeps_valid (g : list ExecutionStep) (s : ExecutionStep) :
  _validate_execution_graph g = Ok tt ->
  ~ In (step_id s) (map step_id g) ->
  (forall d, In d (dependencies s) -> In d (map step_id g)) ->
  _validate_execution_graph (add_step g s) = Ok tt.
Proof.
  intros Hv Hfresh Hdeps.
  pose proof (validate_ok_nodup g tt Hv) as Hnd.
  destruct (validate_cases g) as [_ Hok]. specialize (Hok tt Hv).
  apply validate_not_malformed.
  intros [Hd|[(t & Ht & Hself)|[(t & d & Ht & Hd & Hmiss)|(a & Hcyc)]]].
  - apply Hd. unfold add_step. rewrite map_app. apply List.NoDup_app; [exact Hnd|repeat constructor; simpl; tauto|].
    intros a Ha [<-|[]]. exact (Hfresh Ha).
  - unfold add_step in Ht. rewrite in_app_iff in Ht. destruct Ht as [Ht|[<-|[]]].
    + apply Hok. right; left. exists t. auto.
    + apply Hfresh, Hdeps, Hself.
  - unfold add_step in Ht. rewrite in_app_iff in Ht.
    assert (Hd' : ~ In d (map step_id g)).
    { intros Hin. apply Hmiss. unfold add_step. rewrite map_app, in_app_iff. left. exact Hin. }
    destruct Ht as [Ht|[<-|[]]].
    + apply Hok. right; right; left. exists t, d. auto.
    + apply Hd', Hdeps, Hd.
  - assert (Hmiss : ~ has_missing_dependency g) by (intros H; apply Hok; right; right; left; exact H).
    apply Hok. right; right; right. exists a.
    apply (add_step_path_old g s Hmiss Hfresh Hdeps a a Hcyc).
    apply clos_trans_tn1 in Hcyc. inversion Hcyc as [? Hlast|y ? Hlast _]; subst;
      exact (add_step_no_edge_into g s _ _ Hmiss Hfresh Hdeps Hlast).
Qed.

Lemma add_step_keeps_valid_witness :
  _validate_execution_graph (add_step [step_A] step_B) = Ok tt.
Proof.
  apply add_step_keeps_valid.
  - vm_compute. reflexivity.
  - simpl. intuition discriminate.
  - intros d [<-|[]]. left. reflexivity.
Defined.

(** Appending a step whose id is already in the graph makes the graph
    invalid: [_validate_execution_graph] then raises the duplicate-id
    error, whatever the rest of the graph. *)
Theorem add_step_duplicate_id (g : list ExecutionStep) (s : ExecutionStep) :
  In (step_id s) (map step_id g) ->
  _validate_execution_graph (add_step g s) =
    Raise (ValueError "Execution graph contains duplicate step_id values").
Proof.
  intros Hin. unfold _validate_execution_graph. cbv zeta.
  destruct (Nat.eqb_spec (length (steps_by_id (add_step g s))) (length (add_step g s))) as [Hl|Hl];
    [|reflexivity].
  exfalso. apply steps_by_id_length_iff in Hl. unfold add_step in Hl.
  rewrite map_app in Hl. simpl in Hl. apply List.NoDup_remove_2 in Hl.
  apply Hl. rewrite app_nil_r. exact Hin.
Qed.

Lemma add_step_duplicate_id_witness :
  _validate_execution_graph (add_step [step_A; step_B] (mkStep 1 "again" "m" StepStatus.PENDING [] PyNone None None None)) =
    Raise (ValueError "Execution graph contains duplicate step_id values").
Proof. apply add_step_duplicate_id. left. reflexivity. Defined.

(* ------------------------------------------------------------------ *)
(** ** [Orchestrator.execute] and [Orchestrator.get_next_executable_step] *)

Lemma execute_plan_outcome llm (plan : Plan) (max_steps : Z) (w : world) :
  (run_result (execute_plan llm plan max_steps w) = Ok tt /\
   ((plan_status (run_plan (execute_plan llm plan max_steps w)) = PlanStatus.COMPLETED /\
     all_completed (execution_graph (run_plan (execute_plan llm plan max_steps w))) = true) \/
    plan_status (run_plan (execute_plan llm plan max_steps w)) = PlanStatus.FAILED)) \/
  (exists e, _validate_execution_graph (execution_graph plan) = Raise e /\
             run_result (execute_plan llm plan max_steps w) = Raise e /\
             run_plan (execute_plan llm plan max_steps w) = plan /\
             run_world (execute_plan llm plan max_steps w) = w).
Proof.
  unfold execute_plan.
  destruct (_validate_execution_graph (execution_graph plan)) as [u|e] eqn:Hv;
    [|right; exists e; auto].
  left. cbn zeta. cbn [execution_graph].
  assert (Hf : max_steps - 0 <= Z.of_nat (Z.to_nat max_steps)) by lia.
  pose proof (while_loop_spec llm max_steps _ (execution_graph plan) 0 w Hf) as H.
  destruct (while_loop llm (Z.to_nat max_steps) max_steps (execution_graph plan) 0 w)
    as [g sc w1|g sc w1|]; [| |contradiction].
  - destruct (all_completed g) eqn:Hc; simpl; auto.
  - simpl. auto.
Qed.

(** [Orchestrator.execute] runs a plan at most once.  When it returns a
    plan, that plan is the caller's object, now COMPLETED or FAILED, and
    it has been saved once; executing it again raises the "must be
    APPROVED" error and changes nothing.  When it raises (the plan is not
    APPROVED, or its graph fails validation), the plan object and the
    world are as they were and nothing is saved. *)
Theorem orchestrator_execute_once llm (plan : Plan) (w : world) (db : list Plan) :
  match Orchestrator.execute llm plan w db with
  | (Ok p, p', w', db') =>
      p' = p /\ db' = p :: db /\
      (plan_status p = PlanStatus.COMPLETED \/ plan_status p = PlanStatus.FAILED) /\
      Orchestrator.execute llm p w' db' =
        (Raise (ValueError "Plan must be APPROVED before execution"), p, w', db')
  | (Raise _, p', w', db') => p' = plan /\ w' = w /\ db' = db
  end.
Proof.
  unfold Orchestrator.execute at 1.
  destruct (decide (plan_status plan <> PlanStatus.APPROVED)) as [Hn|Ha]; [auto|].
  destruct (execute_plan_outcome llm plan 100 w) as [(Hok & Hst)|(e & _ & Hr & Hp & Hw)].
  - rewrite Hok. split; [reflexivity|]. split; [reflexivity|].
    assert (Hs : plan_status (run_plan (execute_plan llm plan 100 w)) = PlanStatus.COMPLETED \/
                 plan_status (run_plan (execute_plan llm plan 100 w)) = PlanStatus.FAILED)
      by (destruct Hst as [[H _]|H]; auto).
    split; [exact Hs|].
    unfold Orchestrator.execute.
    rewrite decide_True; [reflexivity|].
    destruct Hs as [-> | ->]; discriminate.
  - rewrite Hr. auto.
Qed.

(** After an execution that COMPLETED a plan with at least one step,
    [get_next_executable_step] does not return [None]: no step is PENDING
    any more, so [get_executable_steps(plan)[0]] raises [IndexError]. *)
Theorem execute_then_next_step_index_error llm (plan : Plan) (w : world) (db : list Plan) (p : Plan) :
  fst (fst (fst (Orchestrator.execute llm plan w db))) = Ok p ->
  plan_status p = PlanStatus.COMPLETED ->
  execution_graph p <> [] ->
  Orchestrator.get_next_executable_step (execution_graph p) = Orchestrator.IndexError.
Proof.
  intros Hr Hc Hne. unfold Orchestrator.execute in Hr.
  destruct (decide (plan_status plan <> PlanStatus.APPROVED)); [discriminate|].
  destruct (execute_plan_outcome llm plan 100 w) as [(Hok & Hst)|(e & _ & He & _)].
  2:{ rewrite He in Hr. discriminate. }
  rewrite Hok in Hr. simpl in Hr. injection Hr as <-.
  destruct Hst as [[_ Hall]|Hf]; [|rewrite Hf in Hc; discriminate].
  apply all_completed_Forall in Hall.
  unfold Orchestrator.get_next_executable_step.
  destruct (execution_graph (run_plan (execute_plan llm plan 100 w))) as [|s0 g0] eqn:Eg;
    [contradiction|].
  rewrite <- Eg. rewrite <- Eg in Hall.
  destruct (get_executable_steps _) as [|s rest] eqn:Ex; [reflexivity|].
  exfalso. assert (Hin : In s (get_executable_steps (execution_graph (run_plan (execute_plan llm plan 100 w)))))
    by (rewrite Ex; left; reflexivity).
  rewrite get_executable_steps_eq in Hin.
  apply list_elem_of_In, list_elem_of_filter in Hin as [[Hp _] Hin].
  apply list_elem_of_In in Hin. rewrite List.Forall_forall in Hall.
  destruct (Hall s Hin); congruence.
Qed.

Lemma execute_then_next_step_index_error_witness :
  exists p, fst (fst (fst (Orchestrator.execute abc_llm plan_123 [] []))) = Ok p /\
    Orchestrator.get_next_executable_step (execution_graph p) = Orchestrator.IndexError.
Proof.
  exists (match fst (fst (fst (Orchestrator.execute abc_llm plan_123 [] []))) with
          | Ok p => p | Raise _ => plan_123 end).
  split; [vm_compute; reflexivity|].
  apply (execute_then_next_step_index_error abc_llm plan_123 [] []).
  - vm_compute. reflexivity.
  - vm_compute. reflexivity.
  - vm_compute. discriminate.
Defined.

(* ------------------------------------------------------------------ *)
(** ** The Gemini path of [LLMGateway] *)

Lemma convert_messages_app (l1 l2 : list LLMGateway.message) :
  LLMGateway._convert_messages_for_gemini (l1 ++ l2) =
    match LLMGateway._convert_messages_for_gemini l1, LLMGateway._convert_messages_for_gemini l2 with
    | Some a, Some b => Some (a ++ b)
    | _, _ => None
    end.
Proof.
  induction l1 as [|m l1 IH]; simpl.
  - destruct (LLMGateway._convert_messages_for_gemini l2); reflexivity.
  - destruct (dict_get String.eqb "content" m); [|reflexivity].
    rewrite IH.
    destruct (LLMGateway._convert_messages_for_gemini l1), (LLMGateway._convert_messages_for_gemini l2);
      reflexivity.
Qed.

Lemma convert_messages_roles (msgs : list LLMGateway.message) :
  Forall (fun m => dict_get String.eqb "content" m <> None) msgs ->
  exists conv, LLMGateway._convert_messages_for_gemini msgs = Some conv /\
    length conv = length msgs /\
    Forall (fun gm => LLMGateway.g_role gm <> "system" /\ LLMGateway.g_role gm <> "assistant") conv.
Proof.
  induction 1 as [|m msgs Hm _ IH]; [exists []; simpl; auto|].
  destruct IH as (conv & Hc & Hl & Hr).
  simpl. destruct (dict_get String.eqb "content" m) as [c|]; [|contradiction].
  rewrite Hc. eexists. split; [reflexivity|]. split; [simpl; congruence|].
  constructor; [|exact Hr]. simpl.
  destruct (String.eqb_spec (default "user" (dict_get String.eqb "role" m)) "system"); [split; discriminate|].
  destruct (String.eqb_spec (default "user" (dict_get String.eqb "role" m)) "assistant");
    [split; discriminate|]. auto.
Qed.

(** What [_complete_gemini] sends: when every message has a content, the
    converted conversation has one Gemini message per message, none with
    the role "system" or "assistant" (they become "user" and "model"), and
    in JSON mode the JSON-only instruction, added as a system message by
    [_prepare_messages], arrives last as a "user" message. *)
Theorem gemini_messages_spec (msgs : list LLMGateway.message) (json_mode : bool) :
  Forall (fun m => dict_get String.eqb "content" m <> None) msgs ->
  exists conv,
    LLMGateway._convert_messages_for_gemini (LLMGateway._prepare_messages msgs json_mode) =
      Some (conv ++ if json_mode
                    then [LLMGateway.mkGeminiMessage "user" [LLMGateway.JSON_ONLY_INSTRUCTION]]
                    else []) /\
    length conv = length msgs /\
    Forall (fun gm => LLMGateway.g_role gm <> "system" /\ LLMGateway.g_role gm <> "assistant") conv.
Proof.
  intros H. destruct (convert_messages_roles msgs H) as (conv & Hc & Hl & Hr).
  exists conv. split; [|auto].
  unfold LLMGateway._prepare_messages. destruct json_mode.
  - rewrite convert_messages_app, Hc. reflexivity.
  - rewrite Hc, app_nil_r. reflexivity.
Qed.

Lemma gemini_messages_spec_witness :
  exists conv,
    LLMGateway._convert_messages_for_gemini
      (LLMGateway._prepare_messages [[("role", "system"); ("content", "be brief")];
                                     [("content", "hello")]] true) =
      Some (conv ++ [LLMGateway.mkGeminiMessage "user" [LLMGateway.JSON_ONLY_INSTRUCTION]]) /\
    length conv = length [[("role", "system"); ("content", "be brief")]; [("content", "hello")]] /\
    Forall (fun gm => LLMGateway.g_role gm <> "system" /\ LLMGateway.g_role gm <> "assistant") conv.
Proof.
  apply (gemini_messages_spec [[("role", "system"); ("content", "be brief")]; [("content", "hello")]] true).
  repeat constructor; simpl; discriminate.
Defined.



(* ------------------------------------------------------------------ *)
(** ** Each step runs at most once *)






(* ------------------------------------------------------------------ *)
(** ** What [execute_plan] leaves alone *)

Lemma execute_plan_frame llm (plan : Plan) (max_steps : Z) (w : world) :
  map step_id (execution_graph (run_plan (execute_plan llm plan max_steps w))) =
    map step_id (execution_graph plan) /\
  map dependencies (execution_graph (run_plan (execute_plan llm plan max_steps w))) =
    map dependencies (execution_graph plan) /\
  forall k, status (execution_graph plan !!! k) <> StepStatus.PENDING ->
    execution_graph (run_plan (execute_plan llm plan max_steps w)) !!! k = execution_graph plan !!! k.
Proof.
  unfold execute_plan.
  destruct (_validate_execution_graph (execution_graph plan)); [|simpl; auto].
  cbn zeta. cbn [execution_graph].
  assert (Hf : max_steps - 0 <= Z.of_nat (Z.to_nat max_steps)) by lia.
  pose proof (while_loop_spec llm max_steps _ (execution_graph plan) 0 w Hf) as Hs.
  assert (Hinv : forall k, status (execution_graph plan !!! k) <> StepStatus.PENDING ->
    match while_loop llm (Z.to_nat max_steps) max_steps (execution_graph plan) 0 w with
    | LoopBreak g1 _ _ | LoopFailed g1 _ _ => g1 !!! k = execution_graph plan !!! k
    | LoopFuelOut => True
    end).
  { intros k Hk. apply (while_loop_invariant llm max_steps (fun g1 => g1 !!! k = execution_graph plan !!! k));
      [|reflexivity].
    intros g sc w0 b g1 sc1 w1 Hg Hr.
    destruct (run_batch_spec _ _ _ _ _ _ _ _ _ Hr) as (_ & _ & Hsame & _).
    { apply executable_refs_lt. }
    rewrite Hsame; [exact Hg|]. intros Hin. apply executable_refs_In in Hin as [Hp _].
    rewrite Hg in Hp. contradiction. }
  destruct (while_loop llm (Z.to_nat max_steps) max_steps (execution_graph plan) 0 w)
    as [g sc w1|g sc w1|].
  - destruct Hs as (Hids & Hds & _). destruct (all_completed g); simpl; auto.
  - destruct Hs as (Hids & Hds & _). simpl. auto.
  - simpl. auto.
Qed.

(** [execute_plan] only runs PENDING steps and keeps the graph's shape:
    afterwards the plan has the same steps in the same order, with the
    same ids and dependencies, and every step that was not PENDING when it
    was called (COMPLETED, SKIPPED, FAILED or IN_PROGRESS) is exactly as it
    was: a FAILED step is not retried. *)
Theorem execute_plan_touches_only_pending llm (plan : Plan) (max_steps : Z) (w : world) :
  map step_id (execution_graph (run_plan (execute_plan llm plan max_steps w))) =
    map step_id (execution_graph plan) /\
  map dependencies (execution_graph (run_plan (execute_plan llm plan max_steps w))) =
    map dependencies (execution_graph plan) /\
  forall k, status (execution_graph plan !!! k) <> StepStatus.PENDING ->
    execution_graph (run_plan (execute_plan llm plan max_steps w)) !!! k = execution_graph plan !!! k.
Proof. apply execute_plan_frame. Qed.

(** A plan that holds a FAILED or IN_PROGRESS step (say, left by an
    earlier interrupted run) can never be completed by [execute_plan]:
    such a step is never picked up again, so a run that returns does not
    leave the plan COMPLETED. *)
Theorem execute_plan_stale_step_blocks llm (plan : Plan) (max_steps : Z) (w : world) (k : nat) :
  (k < length (execution_graph plan))%nat ->
  status (execution_graph plan !!! k) = StepStatus.FAILED \/
  status (execution_graph plan !!! k) = StepStatus.IN_PROGRESS ->
  run_result (execute_plan llm plan max_steps w) = Ok tt ->
  plan_status (run_plan (execute_plan llm plan max_steps w)) <> PlanStatus.COMPLETED.
Proof.
  intros Hk Hst Hok Hc.
  destruct (execute_plan_frame llm plan max_steps w) as (Hids & _ & Hsame).
  specialize (Hsame k ltac:(destruct Hst as [E|E]; rewrite E; discriminate)).
  destruct (execute_plan_outcome llm plan max_steps w) as [(_ & [[_ Hall]|Hf])|(e & _ & Hr & _)].
  - apply all_completed_Forall in Hall. rewrite List.Forall_forall in Hall.
    assert (Hlen : (k < length (execution_graph (run_plan (execute_plan llm plan max_steps w))))%nat).
    { rewrite <- length_map with (f := step_id), Hids, length_map. exact Hk. }
    destruct (Hall _ (lookup_total_In _ _ Hlen)) as [E|E]; rewrite Hsame in E;
      destruct Hst as [E'|E']; congruence.
  - congruence.
  - congruence.
Qed.

Lemma execute_plan_stale_step_blocks_witness :
  plan_status (run_plan (execute_plan (answering_llm "x")
    (mkPlan PlanStatus.APPROVED
       [mkStep 1 "A" "m" StepStatus.FAILED [] PyNone (Some "earlier") None None; step_C] None)
    100 [])) <> PlanStatus.COMPLETED.
Proof.
  apply (execute_plan_stale_step_blocks _ _ _ _ 0).
  - simpl. lia.
  - left. reflexivity.
  - vm_compute. reflexivity.
Defined.
